(** * Credential issuance, rotation and revocation (src/auth/jwt.ts)

    A shallow embedding of the token module: the claim set, the in-memory
    refresh ledger [refreshStore], [issueTokens], [rotateRefreshToken],
    [authenticateJwt] and [revokeFamily], followed by the properties of the
    ledger state machine.

    Conventions of the embedding.
    - [refreshStore] is a module-level [Map<string, RefreshRecord>]; every
      function that touches it takes the store and returns the new one.
    - [Date.now()] is the argument [now] (milliseconds); one call of the
      module reads one clock value.
    - [generateId()] is [crypto.randomBytes(16)]: the three identifiers one
      [issueTokens] call draws are the argument [rnd : Draws].
    - [throw new Error(m)] is [Throw m]; every throw of the module happens
      before the store is written.
    - The [jsonwebtoken] package is an interface ([JsonWebToken]) with the
      laws the module relies on; [symbolic_jwt] is an implementation.

    Around it: the two routes of src/auth/credentials.ts that call the
    module, [getEnv] of src/config/env.ts, the explorer links of
    src/utils/explorer.ts and [computeMetadataRoot] of
    src/routes/blockchain.ts. A string is held as its UTF-8 bytes, and
    [utf16] gives its code units where the code counts or orders them;
    platform functions these read ([parseInt], [new URL(..).hostname],
    [JSON.stringify], [ethers.sha256], the timespan reading of [jwt.sign])
    are arguments of the models. *)

From Stdlib Require Import ZArith Ascii String.
From stdpp Require Import gmap strings list fin_maps countable sorting.

Open Scope string_scope.
Open Scope Z_scope.

(** ** Data model *)

(** [type: 'access' | 'refresh'] *)
Inductive TokenType := access | refresh.

#[global] Instance TokenType_eq_dec : EqDecision TokenType.
Proof. solve_decision. Defined.

(** [export type JwtPayload] *)
Record JwtPayload := mkJwtPayload {
  sub : string;
  iss : string;
  aud : string;
  jti : string;
  type : TokenType
}.

#[global] Instance JwtPayload_eq_dec : EqDecision JwtPayload.
Proof. solve_decision. Defined.

(** [jwt.JwtPayload]: the claim set as carried by a token, i.e. the
    application payload plus the timestamps the signer attaches. [exp] is
    optional in the package's type, hence the [decoded?.exp ? ... : ...] of
    [issueTokens]. Timestamps are seconds. *)
Record SignedClaims := mkSignedClaims {
  payload : JwtPayload;
  iat : Z;
  exp : option Z
}.

#[global] Instance SignedClaims_eq_dec : EqDecision SignedClaims.
Proof. solve_decision. Defined.

(** [type RefreshRecord] *)
Module RefreshRecord.
Record t := mk {
  jti : string;
  sub : string;
  family : string;
  valid : bool;
  expiresAt : Z
}.

(** [record.valid = false] *)
Definition invalidate (rec : t) : t :=
  {| jti := jti rec; sub := sub rec; family := family rec;
     valid := false; expiresAt := expiresAt rec |}.
End RefreshRecord.

#[global] Instance RefreshRecord_eq_dec : EqDecision RefreshRecord.t.
Proof. solve_decision. Defined.

(** The part of [AppEnv] the token module reads. The two TTLs are the
    configured timespans (['15m'], ['7d']) as the number of seconds
    [jwt.sign] adds to [iat]: the module is modelled under a configuration
    whose TTLs [jwt.sign] accepts. Under any other, [issueTokens] throws
    before it writes and the ledger stays empty ([tokenEnv], [postToken]). *)
Record AppEnv := mkAppEnv {
  JWT_ACCESS_SECRET : string;
  JWT_REFRESH_SECRET : string;
  JWT_ISSUER : string;
  JWT_AUDIENCE : string;
  ACCESS_TOKEN_TTL : Z;
  REFRESH_TOKEN_TTL : Z
}.

(** The three [generateId()] results of one [issueTokens] call, in the order
    they are drawn. *)
Record Draws := mkDraws {
  accessId : string;
  refreshId : string;
  familyId : string
}.

(** [{ accessToken, refreshToken }] *)
Record TokenPair := mkTokenPair {
  accessToken : string;
  refreshToken : string
}.

(** A call either returns or throws [new Error(message)]. *)
Inductive Outcome (A : Type) :=
| Return (a : A)
| Throw (message : string).
Arguments Return {A} a.
Arguments Throw {A} message.

(** What [authenticateJwt] does with the request: [next()] with [req.jwt]
    set, or [res.status(401).json({ error })]. *)
Inductive AuthResult :=
| Next (jwt : SignedClaims)
| Status401 (error : string).

(** ** The jsonwebtoken package *)

(** The compact serialisation with its HS256 signature is kept abstract:
    [jws_seal] signs a claim set under a secret, [jws_open] parses a token
    and checks its algorithm and signature under a secret, [jws_peek] parses
    without checking ([jwt.decode]). The laws are the ones the module
    depends on. *)
Class JsonWebToken := {
  jws_seal : SignedClaims → string → string;
  jws_open : string → string → option SignedClaims;
  jws_peek : string → option SignedClaims;
  jws_open_seal c k : jws_open (jws_seal c k) k = Some c;
  jws_open_seal_ne c k k' : k ≠ k' → jws_open (jws_seal c k) k' = None;
  jws_peek_seal c k : jws_peek (jws_seal c k) = Some c;
  jws_open_peek t k c : jws_open t k = Some c → jws_peek t = Some c;
  jws_peek_empty : jws_peek "" = None
}.

Section Jwt.
Context `{JsonWebToken}.

(** [jwt.sign(payload, secret, { expiresIn, algorithm: 'HS256' })]:
    [iat = floor(Date.now() / 1000)], [exp = iat + expiresIn]. *)
Definition jwt_sign (p : JwtPayload) (secret : string) (expiresIn now : Z)
  : string :=
  let timestamp := now `div` 1000 in
  jws_seal {| payload := p; iat := timestamp;
              exp := Some (timestamp + expiresIn) |} secret.

(** [jwt.decode(token)] *)
Definition jwt_decode (token : string) : option SignedClaims :=
  jws_peek token.

(** The expiry test of [jwt.verify]: [clockTimestamp >= payload.exp]. *)
Definition expired (c : SignedClaims) (now : Z) : bool :=
  match exp c with
  | Some e => bool_decide (e ≤ now `div` 1000)
  | None => false
  end.

(** [jwt.verify(token, secret, { algorithms: ['HS256'], issuer, audience })];
    [None] is any of the errors it throws. After the signature it checks
    expiry, audience and issuer, in that order. *)
Definition jwt_verify (token secret issuer audience : string) (now : Z)
  : option SignedClaims :=
  match jws_open token secret with
  | None => None
  | Some c =>
      if expired c now then None
      else if negb (bool_decide (aud (payload c) = audience)) then None
      else if negb (bool_decide (iss (payload c) = issuer)) then None
      else Some c
  end.

(** ** The module *)

(** [decoded?.exp ? decoded.exp * 1000 : Date.now() + 7 * 24 * 3600 * 1000];
    an absent token, an absent [exp] and [exp = 0] are all falsy. *)
Definition expiryOf (decoded : option SignedClaims) (now : Z) : Z :=
  match decoded with
  | Some c =>
      match exp c with
      | Some e => if bool_decide (e = 0) then now + 7 * 24 * 3600 * 1000
                  else e * 1000
      | None => now + 7 * 24 * 3600 * 1000
      end
  | None => now + 7 * 24 * 3600 * 1000
  end.

Definition accessPayload (env : AppEnv) (rnd : Draws) (subject : string)
  : JwtPayload :=
  {| sub := subject; iss := JWT_ISSUER env; aud := JWT_AUDIENCE env;
     jti := accessId rnd; type := access |}.

Definition refreshPayload (env : AppEnv) (rnd : Draws) (subject : string)
  : JwtPayload :=
  {| sub := subject; iss := JWT_ISSUER env; aud := JWT_AUDIENCE env;
     jti := refreshId rnd; type := refresh |}.

(** [export function issueTokens(subject)] *)
Definition issueTokens (env : AppEnv) (now : Z) (rnd : Draws)
    (subject : string) (store : gmap string RefreshRecord.t)
  : TokenPair * gmap string RefreshRecord.t :=
  let accessToken :=
    jwt_sign (accessPayload env rnd subject) (JWT_ACCESS_SECRET env)
             (ACCESS_TOKEN_TTL env) now in
  let refreshToken :=
    jwt_sign (refreshPayload env rnd subject) (JWT_REFRESH_SECRET env)
             (REFRESH_TOKEN_TTL env) now in
  let decoded := jwt_decode refreshToken in
  let exp := expiryOf decoded now in
  ({| accessToken := accessToken; refreshToken := refreshToken |},
   <[refreshId rnd :=
       {| RefreshRecord.jti := refreshId rnd; RefreshRecord.sub := subject;
          RefreshRecord.family := familyId rnd; RefreshRecord.valid := true;
          RefreshRecord.expiresAt := exp |}]> store).

(** [export function rotateRefreshToken(oldToken)]. [record] is the object
    held by the store under [payload.jti], so [record.valid = false] writes
    that entry; [refreshStore.set(record.jti, record)] then stores the same
    record under its own [jti]. *)
Definition rotateRefreshToken (env : AppEnv) (now : Z) (rnd : Draws)
    (oldToken : string) (store : gmap string RefreshRecord.t)
  : Outcome TokenPair * gmap string RefreshRecord.t :=
  match jwt_verify oldToken (JWT_REFRESH_SECRET env) (JWT_ISSUER env)
                   (JWT_AUDIENCE env) now with
  | None => (Throw "invalid_refresh", store)
  | Some c =>
      if negb (bool_decide (type (payload c) = refresh))
      then (Throw "invalid_refresh", store)
      else
        match store !! jti (payload c) with
        | None => (Throw "refresh_reused_or_revoked", store)
        | Some record =>
            if negb (RefreshRecord.valid record)
            then (Throw "refresh_reused_or_revoked", store)
            else
              let record' := RefreshRecord.invalidate record in
              let store1 :=
                <[RefreshRecord.jti record' := record']>
                  (<[jti (payload c) := record']> store) in
              let '(tokens, store2) :=
                issueTokens env now rnd (sub (payload c)) store1 in
              (Return tokens, store2)
        end
  end.

(** [auth.startsWith('Bearer ') ? auth.slice(7) : ''] *)
Definition bearerToken (auth : string) : string :=
  if String.prefix "Bearer " auth
  then String.substring 7 (String.length auth - 7) auth
  else "".

(** [export function authenticateJwt(req, res, next)], on
    [req.headers.authorization]. It neither reads nor writes the store. *)
Definition authenticateJwt (env : AppEnv) (now : Z)
    (authorization : option string) : AuthResult :=
  let auth := default "" authorization in
  let token := bearerToken auth in
  if bool_decide (token = "") then Status401 "missing_token"
  else
    match jwt_verify token (JWT_ACCESS_SECRET env) (JWT_ISSUER env)
                     (JWT_AUDIENCE env) now with
    | Some decoded =>
        if negb (bool_decide (type (payload decoded) = access))
        then Status401 "invalid_token_type"
        else Next decoded
    | None => Status401 "invalid_token"
    end.

(** [export function revokeFamily(subject)]: the loop over
    [refreshStore.entries()], writing back under the key it is visiting. *)
Definition revokeFamily (subject : string)
    (store : gmap string RefreshRecord.t) : gmap string RefreshRecord.t :=
  map_fold
    (λ key rec acc,
       if bool_decide (RefreshRecord.sub rec = subject)
       then <[key := RefreshRecord.invalidate rec]> acc
       else acc)
    store store.

End Jwt.

(** ** Sequences of calls *)

(** One call into the module, with the clock value and identifiers it
    reads. *)
Inductive Call :=
| CallIssue (now : Z) (rnd : Draws) (subject : string)
| CallRotate (now : Z) (rnd : Draws) (oldToken : string)
| CallAuthenticate (now : Z) (authorization : option string)
| CallRevoke (subject : string).

Section Calls.
Context `{JsonWebToken}.

(** The store after one call. *)
Definition exec (env : AppEnv) (c : Call)
    (store : gmap string RefreshRecord.t) : gmap string RefreshRecord.t :=
  match c with
  | CallIssue now rnd subject => (issueTokens env now rnd subject store).2
  | CallRotate now rnd oldToken =>
      (rotateRefreshToken env now rnd oldToken store).2
  | CallAuthenticate now authorization =>
      let _ := authenticateJwt env now authorization in store
  | CallRevoke subject => revokeFamily subject store
  end.

Fixpoint run (env : AppEnv) (cs : list Call)
    (store : gmap string RefreshRecord.t) : gmap string RefreshRecord.t :=
  match cs with
  | [] => store
  | c :: cs' => run env cs' (exec env c store)
  end.

(** The refresh identifier a call draws is not a key of the store
    ([crypto.randomBytes(16)] does not repeat). *)
Definition freshCall (c : Call) (store : gmap string RefreshRecord.t)
  : bool :=
  match c with
  | CallIssue _ rnd _ | CallRotate _ rnd _ =>
      bool_decide (store !! refreshId rnd = None)
  | _ => true
  end.

Fixpoint freshRun (env : AppEnv) (cs : list Call)
    (store : gmap string RefreshRecord.t) : bool :=
  match cs with
  | [] => true
  | c :: cs' => freshCall c store && freshRun env cs' (exec env c store)
  end.

(** A store the module can build, starting from the empty map. *)
Definition reachable (env : AppEnv) (store : gmap string RefreshRecord.t)
  : Prop :=
  ∃ cs, freshRun env cs ∅ = true ∧ run env cs ∅ = store.

(** Every record sits under its own [jti]. *)
Definition wellKeyed (store : gmap string RefreshRecord.t) : Prop :=
  ∀ k rec, store !! k = Some rec → RefreshRecord.jti rec = k.

(** The records of [subject] that can still be redeemed. *)
Definition redeemable (subject : string) (rec : RefreshRecord.t) : bool :=
  bool_decide (RefreshRecord.sub rec = subject) && RefreshRecord.valid rec.

Definition validCount (subject : string)
    (store : gmap string RefreshRecord.t) : nat :=
  size (filter (λ kv, redeemable subject kv.2 = true) store).

(** What one visit of the [revokeFamily] loop does to a record. *)
Definition revoked (subject : string) (rec : RefreshRecord.t)
  : RefreshRecord.t :=
  if bool_decide (RefreshRecord.sub rec = subject)
  then RefreshRecord.invalidate rec else rec.

(** The store a redeemed record leaves behind, before the new pair is
    issued. *)
Definition consumed (k : string) (rec : RefreshRecord.t)
    (store : gmap string RefreshRecord.t) : gmap string RefreshRecord.t :=
  <[RefreshRecord.jti (RefreshRecord.invalidate rec) :=
      RefreshRecord.invalidate rec]>
    (<[k := RefreshRecord.invalidate rec]> store).

(** The refresh tokens one call hands out, and those a sequence of calls
    hands out. *)
Definition mintedBy (env : AppEnv) (c : Call)
    (store : gmap string RefreshRecord.t) : list string :=
  match c with
  | CallIssue now rnd subject =>
      [refreshToken (issueTokens env now rnd subject store).1]
  | CallRotate now rnd oldToken =>
      match (rotateRefreshToken env now rnd oldToken store).1 with
      | Return tokens => [refreshToken tokens]
      | Throw _ => []
      end
  | _ => []
  end.

Fixpoint minted (env : AppEnv) (cs : list Call)
    (store : gmap string RefreshRecord.t) : list string :=
  match cs with
  | [] => []
  | c :: cs' =>
      (mintedBy env c store ++ minted env cs' (exec env c store))%list
  end.

(** The ledger holds, under the token's [jti], a record with that [jti] and
    the token's subject. *)
Definition agrees (store : gmap string RefreshRecord.t) (token : string)
  : Prop :=
  ∃ c rec,
    jwt_decode token = Some c
    ∧ store !! jti (payload c) = Some rec
    ∧ RefreshRecord.jti rec = jti (payload c)
    ∧ RefreshRecord.sub rec = sub (payload c).

End Calls.

(** ** A symbolic implementation of the package

    A token is the claim set and the signing secret, written out as a
    string of digits; it opens under the secret it was sealed with and under
    no other. *)

Fixpoint wire_of_pos (p : positive) : string :=
  match p with
  | xH => "."
  | xO q => String "0"%char (wire_of_pos q)
  | xI q => String "1"%char (wire_of_pos q)
  end.

Fixpoint pos_of_wire (s : string) : option positive :=
  match s with
  | EmptyString => None
  | String a s' =>
      if bool_decide (a = "."%char) then
        match s' with EmptyString => Some xH | _ => None end
      else if bool_decide (a = "0"%char) then xO <$> pos_of_wire s'
      else if bool_decide (a = "1"%char) then xI <$> pos_of_wire s'
      else None
  end.

Lemma pos_of_wire_of_pos p : pos_of_wire (wire_of_pos p) = Some p.
Proof. induction p as [q IH|q IH|]; simpl; by rewrite ?IH. Qed.

#[global] Instance TokenType_countable : Countable TokenType.
Proof.
  refine (inj_countable'
            (λ t, match t with access => false | refresh => true end)
            (λ b : bool, if b then refresh else access) _).
  by intros [].
Defined.

#[global] Instance JwtPayload_countable : Countable JwtPayload.
Proof.
  refine (inj_countable'
            (λ p, (sub p, iss p, aud p, jti p, type p))
            (λ '(s, i, a, j, t), mkJwtPayload s i a j t) _).
  by intros [].
Defined.

#[global] Instance SignedClaims_countable : Countable SignedClaims.
Proof.
  refine (inj_countable'
            (λ c, (payload c, iat c, exp c))
            (λ '(p, i, e), mkSignedClaims p i e) _).
  by intros [].
Defined.

Definition symbolic_seal (c : SignedClaims) (k : string) : string :=
  wire_of_pos (encode (c, k)).

Definition symbolic_parse (t : string) : option (SignedClaims * string) :=
  pos_of_wire t ≫= decode.

Definition symbolic_open (t k : string) : option SignedClaims :=
  match symbolic_parse t with
  | Some (c, k') => if bool_decide (k' = k) then Some c else None
  | None => None
  end.

Definition symbolic_peek (t : string) : option SignedClaims :=
  fst <$> symbolic_parse t.

Lemma symbolic_parse_seal c k : symbolic_parse (symbolic_seal c k) = Some (c, k).
Proof.
  unfold symbolic_parse, symbolic_seal.
  rewrite pos_of_wire_of_pos. simpl. apply decode_encode.
Qed.

#[global] Instance symbolic_jwt : JsonWebToken.
Proof.
  refine {| jws_seal := symbolic_seal; jws_open := symbolic_open;
            jws_peek := symbolic_peek |}.
  - intros c k. unfold symbolic_open. rewrite symbolic_parse_seal.
    by rewrite bool_decide_eq_true_2.
  - intros c k k' Hne. unfold symbolic_open. rewrite symbolic_parse_seal.
    by rewrite bool_decide_eq_false_2.
  - intros c k. unfold symbolic_peek. by rewrite symbolic_parse_seal.
  - intros t k c. unfold symbolic_open, symbolic_peek.
    destruct (symbolic_parse t) as [[c' k']|]; [|done].
    case_bool_decide; [|done]. by intros [= ->].
  - reflexivity.
Defined.

(** ** A session, run on the symbolic implementation *)

Definition demoEnv : AppEnv :=
  {| JWT_ACCESS_SECRET := "access-secret";
     JWT_REFRESH_SECRET := "refresh-secret";
     JWT_ISSUER := "ds-api"; JWT_AUDIENCE := "ds-client";
     ACCESS_TOKEN_TTL := 900; REFRESH_TOKEN_TTL := 604800 |}.


Definition demoClock : Z := 1700000000000.

Definition draws1 : Draws :=
  {| accessId := "a1"; refreshId := "r1"; familyId := "f1" |}.
Definition draws2 : Draws :=
  {| accessId := "a2"; refreshId := "r2"; familyId := "f2" |}.
Definition draws3 : Draws :=
  {| accessId := "a3"; refreshId := "r3"; familyId := "f3" |}.

(** Login of ["app-1"] on the empty ledger. *)
Definition demoLogin : TokenPair * gmap string RefreshRecord.t :=
  issueTokens demoEnv demoClock draws1 "app-1" ∅.

(** Five seconds later the refresh token of the login is rotated. *)
Definition demoRotation
  : Outcome TokenPair * gmap string RefreshRecord.t :=
  rotateRefreshToken demoEnv (demoClock + 5000) draws2
                     (refreshToken demoLogin.1) demoLogin.2.

(** The claim set of the login's refresh token and its two ledger records,
    before and after the rotation. *)
Definition demoClaims : SignedClaims :=
  {| payload := refreshPayload demoEnv draws1 "app-1";
     iat := 1700000000; exp := Some 1700604800 |}.

Definition demoRecord : RefreshRecord.t :=
  {| RefreshRecord.jti := "r1"; RefreshRecord.sub := "app-1";
     RefreshRecord.family := "f1"; RefreshRecord.valid := true;
     RefreshRecord.expiresAt := 1700604800000 |}.

(** What that rotation comes to: [issueTokens] for ["app-1"] on the ledger
    in which ["r1"] is consumed. *)
Definition demoRotated : TokenPair * gmap string RefreshRecord.t :=
  issueTokens demoEnv (demoClock + 5000) draws2 "app-1"
              (consumed "r1" demoRecord demoLogin.2).

(** A ledger with two subjects: ["app-2"] logs in after ["app-1"]. *)
Definition twoSubjects : gmap string RefreshRecord.t :=
  (issueTokens demoEnv demoClock draws2 "app-2" demoLogin.2).2.


(** ** Strings

    A string is held as its UTF-8 bytes. Where the code counts or compares
    UTF-16 code units ([s.length], the default order of [sort]), the model
    reads the code units off the bytes. A string with an unpaired surrogate
    has no UTF-8 form and is not a value of the model. *)

(** [10xxxxxx] *)
Definition continuation (b : ascii) : bool :=
  (128 <=? N_of_ascii b)%N && (N_of_ascii b <? 192)%N.

(** The code units of a string. A byte that starts no UTF-8 sequence is
    read as U+FFFD, as a decoder reads it. *)
Fixpoint utf16 (s : string) : list N :=
  match s with
  | EmptyString => []
  | String b0 s1 =>
      let n0 := N_of_ascii b0 in
      if (n0 <? 128)%N then n0 :: utf16 s1
      else if (n0 <? 192)%N then 65533%N :: utf16 s1
      else if (n0 <? 224)%N then
        match s1 with
        | String b1 s2 =>
            if continuation b1
            then ((n0 - 192) * 64 + (N_of_ascii b1 - 128))%N :: utf16 s2
            else 65533%N :: utf16 s1
        | EmptyString => 65533%N :: utf16 s1
        end
      else if (n0 <? 240)%N then
        match s1 with
        | String b1 (String b2 s3) =>
            if continuation b1 && continuation b2
            then ((n0 - 224) * 4096 + (N_of_ascii b1 - 128) * 64
                  + (N_of_ascii b2 - 128))%N :: utf16 s3
            else 65533%N :: utf16 s1
        | _ => 65533%N :: utf16 s1
        end
      else if (n0 <? 248)%N then
        match s1 with
        | String b1 (String b2 (String b3 s4)) =>
            if continuation b1 && continuation b2 && continuation b3
            then
              let v := ((n0 - 240) * 262144 + (N_of_ascii b1 - 128) * 4096
                        + (N_of_ascii b2 - 128) * 64
                        + (N_of_ascii b3 - 128) - 65536)%N in
              (55296 + v / 1024)%N :: (56320 + v mod 1024)%N :: utf16 s4
            else 65533%N :: utf16 s1
        | _ => 65533%N :: utf16 s1
        end
      else 65533%N :: utf16 s1
  end.

(** [s.length] *)
Definition jsLength (s : string) : nat := length (utf16 s).

(** Code units compared one by one, a proper prefix first: the order of [<]
    on strings. *)
Fixpoint unitsCompare (u v : list N) : comparison :=
  match u, v with
  | [], [] => Eq
  | [], _ :: _ => Lt
  | _ :: _, [] => Gt
  | x :: u', y :: v' =>
      match (x ?= y)%N with
      | Eq => unitsCompare u' v'
      | c => c
      end
  end.

(** The order [Array.prototype.sort()] puts keys in. Two byte strings that
    read as the same code units (not both are UTF-8 then) are told apart by
    their bytes. *)
Definition keyLeb (a b : string) : bool :=
  match unitsCompare (utf16 a) (utf16 b) with
  | Lt => true
  | Gt => false
  | Eq => String.leb a b
  end.

Definition keyBefore (a b : string) : Prop := keyLeb a b = true.

#[global] Instance keyBefore_dec : RelDecision keyBefore.
Proof. intros a b. unfold keyBefore. apply _. Defined.

(** ** Configuration (src/config/env.ts) *)

(** A number as far as [===] against an integer literal can tell: an
    integer, or anything else (NaN, a fraction, an infinity). *)
Inductive JsNumber :=
| Integer (z : Z)
| NotAnInteger.

Module Config.

(** [export type AppEnv], all of it, as [getEnv] fills it. *)
Record AppEnv := mk {
  NODE_ENV : string;
  PORT : JsNumber;
  CORS_ORIGIN : string;
  JWT_ACCESS_SECRET : string;
  JWT_REFRESH_SECRET : string;
  JWT_ISSUER : string;
  JWT_AUDIENCE : string;
  ACCESS_TOKEN_TTL : string;
  REFRESH_TOKEN_TTL : string;
  APP_ID : string;
  APP_SECRET : string;
  RPC_URL : string;
  CHAIN_ID : string;
  PRIVATE_KEY : string;
  CONTRACT_ADDRESS : option string
}.

Definition required : list string :=
  ["JWT_ACCESS_SECRET"; "JWT_REFRESH_SECRET"; "JWT_ISSUER"; "JWT_AUDIENCE";
   "ACCESS_TOKEN_TTL"; "REFRESH_TOKEN_TTL"; "APP_ID"; "APP_SECRET";
   "RPC_URL"; "CHAIN_ID"; "PRIVATE_KEY"].

(** [!env[key] || env[key] === ''] *)
Definition unset (env : gmap string string) (key : string) : bool :=
  match env !! key with
  | None => true
  | Some v => bool_decide (v = "")
  end.

(** The key at which the loop over [required] throws, if any. *)
Fixpoint firstUnset (env : gmap string string) (keys : list string)
  : option string :=
  match keys with
  | [] => None
  | key :: rest => if unset env key then Some key else firstUnset env rest
  end.

(** [env.KEY!] *)
Definition var (env : gmap string string) (key : string) : string :=
  default "" (env !! key).

(** [env.KEY || fallback] *)
Definition varOr (env : gmap string string) (key fallback : string)
  : string :=
  if unset env key then fallback else var env key.

Section GetEnv.
(** [parseInt(s, 10)] *)
Variable parseInt : string → JsNumber.

(** [export function getEnv()], on the module variable [cachedEnv] and
    [process.env]. *)
Definition getEnv (cachedEnv : option AppEnv) (env : gmap string string)
  : Outcome AppEnv * option AppEnv :=
  match cachedEnv with
  | Some e => (Return e, cachedEnv)
  | None =>
      match firstUnset env required with
      | Some key => (Throw ("Missing required env var: " ++ key), None)
      | None =>
          let e :=
            {| NODE_ENV := varOr env "NODE_ENV" "development";
               PORT := if unset env "PORT" then Integer 4000
                       else parseInt (var env "PORT");
               CORS_ORIGIN := varOr env "CORS_ORIGIN" "*";
               JWT_ACCESS_SECRET := var env "JWT_ACCESS_SECRET";
               JWT_REFRESH_SECRET := var env "JWT_REFRESH_SECRET";
               JWT_ISSUER := var env "JWT_ISSUER";
               JWT_AUDIENCE := var env "JWT_AUDIENCE";
               ACCESS_TOKEN_TTL := var env "ACCESS_TOKEN_TTL";
               REFRESH_TOKEN_TTL := var env "REFRESH_TOKEN_TTL";
               APP_ID := var env "APP_ID";
               APP_SECRET := var env "APP_SECRET";
               RPC_URL := var env "RPC_URL";
               CHAIN_ID := var env "CHAIN_ID";
               PRIVATE_KEY := var env "PRIVATE_KEY";
               CONTRACT_ADDRESS := env !! "CONTRACT_ADDRESS" |} in
          (Return e, Some e)
      end
  end.

End GetEnv.
End Config.

(** ** The auth routes (src/auth/credentials.ts) *)

(** A value as [express.json()] and [JSON.parse] build it. A number is
    carried as the string [String(n)] prints for it; the fields of an object
    are its own properties, under distinct keys. *)
#[warnings="-register-all"] Inductive Json :=
| JNull
| JBool (b : bool)
| JNumber (repr : string)
| JString (s : string)
| JArray (items : list Json)
| JObject (fields : list (string * Json)).

(** [data[key]] on the own properties of an object. *)
Fixpoint property (key : string) (fields : list (string * Json))
  : option Json :=
  match fields with
  | [] => None
  | (k, v) :: rest =>
      if bool_decide (k = key) then Some v else property key rest
  end.

(** [z.string().min(n)] on a property that may be absent: a string of at
    least [n] code units. *)
Definition zStringMin (n : nat) (v : option Json) : option string :=
  match v with
  | Some (JString s) =>
      if bool_decide (n ≤ jsLength s)%nat then Some s else None
  | _ => None
  end.

(** [tokenSchema.safeParse(req.body)]; [None] is [!parsed.success]. *)
Definition tokenSchema (body : option Json) : option (string * string) :=
  match body with
  | Some (JObject fields) =>
      match zStringMin 3 (property "appid" fields),
            zStringMin 8 (property "appsecret" fields) with
      | Some appid, Some appsecret => Some (appid, appsecret)
      | _, _ => None
      end
  | _ => None
  end.

(** [refreshSchema.safeParse(req.body)] *)
Definition refreshSchema (body : option Json) : option string :=
  match body with
  | Some (JObject fields) => zStringMin 10 (property "refreshToken" fields)
  | _ => None
  end.

(** What a handler of the auth router does: it sends one of three answers,
    or it throws ([Uncaught]) and leaves the answer to the error handler of
    the application. *)
Inductive Reply :=
| TokenReply (accessToken refreshToken tokenType expiresIn : string)
| RefreshReply (accessToken refreshToken : string)
| ErrorReply (status : Z) (error : string)
| Uncaught.

Section Routes.
Context `{JsonWebToken}.

(** What [jwt.sign] makes of [expiresIn]: the seconds it adds to [iat], or
    [None] when the string is no timespan and [jwt.sign] throws. *)
Variable timespan : string → option Z.

(** The configuration as the token module uses it, when [jwt.sign] accepts
    both TTLs. *)
Definition tokenEnv (cfg : Config.AppEnv) : option AppEnv :=
  match timespan (Config.ACCESS_TOKEN_TTL cfg),
        timespan (Config.REFRESH_TOKEN_TTL cfg) with
  | Some accessTtl, Some refreshTtl =>
      Some {| JWT_ACCESS_SECRET := Config.JWT_ACCESS_SECRET cfg;
              JWT_REFRESH_SECRET := Config.JWT_REFRESH_SECRET cfg;
              JWT_ISSUER := Config.JWT_ISSUER cfg;
              JWT_AUDIENCE := Config.JWT_AUDIENCE cfg;
              ACCESS_TOKEN_TTL := accessTtl;
              REFRESH_TOKEN_TTL := refreshTtl |}
  | _, _ => None
  end.

(** [router.post('/token', ...)], on the configuration [getEnv] returns.
    When a TTL is no timespan, [issueTokens] throws at [jwt.sign], before
    it writes the store, and nothing catches it. *)
Definition postToken (cfg : Config.AppEnv) (now : Z) (rnd : Draws)
    (body : option Json) (store : gmap string RefreshRecord.t)
  : Reply * gmap string RefreshRecord.t :=
  match tokenSchema body with
  | None => (ErrorReply 400 "invalid_input", store)
  | Some (appid, appsecret) =>
      if negb (bool_decide (appid = Config.APP_ID cfg))
         || negb (bool_decide (appsecret = Config.APP_SECRET cfg))
      then (ErrorReply 401 "invalid_credentials", store)
      else
        match tokenEnv cfg with
        | None => (Uncaught, store)
        | Some env =>
            let '(tokens, store') := issueTokens env now rnd appid store in
            (TokenReply (accessToken tokens) (refreshToken tokens) "Bearer"
                        (Config.ACCESS_TOKEN_TTL cfg),
             store')
        end
  end.

(** [router.post('/refresh', ...)], on a configuration whose TTLs are
    timespans; the [catch] answers every throw of [rotateRefreshToken]
    alike. *)
Definition postRefresh (env : AppEnv) (now : Z) (rnd : Draws)
    (body : option Json) (store : gmap string RefreshRecord.t)
  : Reply * gmap string RefreshRecord.t :=
  match refreshSchema body with
  | None => (ErrorReply 400 "invalid_input", store)
  | Some token =>
      match rotateRefreshToken env now rnd token store with
      | (Return tokens, store') =>
          (RefreshReply (accessToken tokens) (refreshToken tokens), store')
      | (Throw _, store') => (ErrorReply 401 "invalid_refresh", store')
      end
  end.

End Routes.

(** The body [{ "refreshToken": token }]. *)
Definition refreshBody (token : string) : option Json :=
  Some (JObject [("refreshToken", JString token)]).

(** The body [{ "appid": appid, "appsecret": appsecret }]. *)
Definition tokenBody (appid appsecret : string) : option Json :=
  Some (JObject [("appid", JString appid); ("appsecret", JString appsecret)]).

(** ** Explorer links (src/utils/explorer.ts) *)

(** [hay.includes(needle)] *)
Fixpoint includes (needle hay : string) : bool :=
  if String.prefix needle hay then true
  else match hay with
       | EmptyString => false
       | String _ rest => includes needle rest
       end.

(** The [case] labels of [getExplorerBase]. *)
Definition explorerOfChain (chainId : Z) : option string :=
  if bool_decide (chainId = 1) then Some "https://etherscan.io"
  else if bool_decide (chainId = 5) then Some "https://goerli.etherscan.io"
  else if bool_decide (chainId = 11155111)
  then Some "https://sepolia.etherscan.io"
  else if bool_decide (chainId = 137) then Some "https://polygonscan.com"
  else if bool_decide (chainId = 80001)
  then Some "https://mumbai.polygonscan.com"
  else if bool_decide (chainId = 8453) then Some "https://basescan.org"
  else if bool_decide (chainId = 10)
  then Some "https://optimistic.etherscan.io"
  else if bool_decide (chainId = 42161) then Some "https://arbiscan.io"
  else None.

Section Explorer.
(** [new URL(rpcUrl).hostname]; [None] when the constructor throws. *)
Variable hostname : string → option string.

(** The [default:] branch of [getExplorerBase]. *)
Definition explorerOfRpc (rpcUrl : option string) : option string :=
  match rpcUrl with
  | None => None
  | Some url =>
      if bool_decide (url = "") then None
      else
        match hostname url with
        | None => None
        | Some host =>
            if includes "polygon" host then Some "https://polygonscan.com"
            else if includes "eth" host then Some "https://etherscan.io"
            else None
        end
  end.

(** [export function getExplorerBase(chainId, rpcUrl)] *)
Definition getExplorerBase (chainId : JsNumber) (rpcUrl : option string)
  : option string :=
  match chainId with
  | Integer z =>
      match explorerOfChain z with
      | Some base => Some base
      | None => explorerOfRpc rpcUrl
      end
  | NotAnInteger => explorerOfRpc rpcUrl
  end.

(** [export function txExplorerUrl(txHash, chainId, rpcUrl?)] *)
Definition txExplorerUrl (txHash : string) (chainId : JsNumber)
    (rpcUrl : option string) : string :=
  match getExplorerBase chainId rpcUrl with
  | Some base =>
      if bool_decide (base = "") then "tx:" ++ txHash
      else base ++ "/tx/" ++ txHash
  | None => "tx:" ++ txHash
  end.

End Explorer.

(** ** The metadata commitment (src/routes/blockchain.ts) *)

Section MetadataRoot.
(** [JSON.stringify(value)] and [ethers.sha256] of the UTF-8 text. *)
Variable JSON_stringify : Json → string.
Variable sha256 : string → string.

(** The [stringValue] of one entry: [JSON.stringify] for objects and arrays,
    [String(value)] otherwise. *)
Definition stringValue (value : Json) : string :=
  match value with
  | JArray _ | JObject _ => JSON_stringify value
  | JNull => "null"
  | JBool true => "true"
  | JBool false => "false"
  | JNumber repr => repr
  | JString s => s
  end.

(** [`${key}:${stringValue}`] for [metadata[key]]. *)
Definition metadataEntry (metadata : list (string * Json)) (key : string)
  : string :=
  key ++ ":" ++ match property key metadata with
                | Some value => stringValue value
                | None => "undefined"
                end.

(** [Object.keys(metadata).sort()]: the default order of [sort] on strings
    is lexicographic on their code units. *)
Definition sortedKeys (metadata : list (string * Json)) : list string :=
  merge_sort keyBefore (metadata.*1).

(** [sortedEntries.join('|')] *)
Definition concatenated (metadata : list (string * Json)) : string :=
  String.concat "|" (metadataEntry metadata <$> sortedKeys metadata).

(** [function computeMetadataRoot(metadata)] *)
Definition computeMetadataRoot (metadata : list (string * Json)) : string :=
  sha256 (concatenated metadata).

End MetadataRoot.

(** ** More of the session *)

(** [demoEnv] with another audience. *)
Definition otherAudienceEnv : AppEnv :=
  {| JWT_ACCESS_SECRET := "access-secret";
     JWT_REFRESH_SECRET := "refresh-secret";
     JWT_ISSUER := "ds-api"; JWT_AUDIENCE := "other-client";
     ACCESS_TOKEN_TTL := 900; REFRESH_TOKEN_TTL := 604800 |}.

(** A process environment with every required variable. *)
Definition demoProcessEnv : gmap string string :=
  list_to_map
    [("JWT_ACCESS_SECRET", "access-secret");
     ("JWT_REFRESH_SECRET", "refresh-secret");
     ("JWT_ISSUER", "ds-api"); ("JWT_AUDIENCE", "ds-client");
     ("ACCESS_TOKEN_TTL", "15m"); ("REFRESH_TOKEN_TTL", "7d");
     ("APP_ID", "app-1"); ("APP_SECRET", "app-1-secret");
     ("RPC_URL", "https://rpc.example"); ("CHAIN_ID", "137");
     ("PRIVATE_KEY", "0xkey")].

(** What [getEnv] makes of it. *)
Definition demoConfig : Config.AppEnv :=
  {| Config.NODE_ENV := "development"; Config.PORT := Integer 4000;
     Config.CORS_ORIGIN := "*";
     Config.JWT_ACCESS_SECRET := "access-secret";
     Config.JWT_REFRESH_SECRET := "refresh-secret";
     Config.JWT_ISSUER := "ds-api"; Config.JWT_AUDIENCE := "ds-client";
     Config.ACCESS_TOKEN_TTL := "15m"; Config.REFRESH_TOKEN_TTL := "7d";
     Config.APP_ID := "app-1"; Config.APP_SECRET := "app-1-secret";
     Config.RPC_URL := "https://rpc.example"; Config.CHAIN_ID := "137";
     Config.PRIVATE_KEY := "0xkey"; Config.CONTRACT_ADDRESS := None |}.

(** The same configuration with a client secret too short for the schema,
    and with a refresh TTL that is no timespan. *)
Definition shortSecretConfig : Config.AppEnv :=
  {| Config.NODE_ENV := "development"; Config.PORT := Integer 4000;
     Config.CORS_ORIGIN := "*";
     Config.JWT_ACCESS_SECRET := "access-secret";
     Config.JWT_REFRESH_SECRET := "refresh-secret";
     Config.JWT_ISSUER := "ds-api"; Config.JWT_AUDIENCE := "ds-client";
     Config.ACCESS_TOKEN_TTL := "15m"; Config.REFRESH_TOKEN_TTL := "7d";
     Config.APP_ID := "app-1"; Config.APP_SECRET := "short";
     Config.RPC_URL := "https://rpc.example"; Config.CHAIN_ID := "137";
     Config.PRIVATE_KEY := "0xkey"; Config.CONTRACT_ADDRESS := None |}.

Definition badTtlConfig : Config.AppEnv :=
  {| Config.NODE_ENV := "development"; Config.PORT := Integer 4000;
     Config.CORS_ORIGIN := "*";
     Config.JWT_ACCESS_SECRET := "access-secret";
     Config.JWT_REFRESH_SECRET := "refresh-secret";
     Config.JWT_ISSUER := "ds-api"; Config.JWT_AUDIENCE := "ds-client";
     Config.ACCESS_TOKEN_TTL := "15m"; Config.REFRESH_TOKEN_TTL := "soon";
     Config.APP_ID := "app-1"; Config.APP_SECRET := "app-1-secret";
     Config.RPC_URL := "https://rpc.example"; Config.CHAIN_ID := "137";
     Config.PRIVATE_KEY := "0xkey"; Config.CONTRACT_ADDRESS := None |}.

(** Stand-ins for the platform functions the models take as arguments. *)
Definition demoTimespan (ttl : string) : option Z :=
  if bool_decide (ttl = "15m") then Some 900
  else if bool_decide (ttl = "7d") then Some 604800
  else None.
Definition demoParseInt (s : string) : JsNumber := NotAnInteger.
Definition demoHostname (url : string) : option string := Some url.
Definition demoStringify (value : Json) : string := "[]".
Definition demoDigest (text : string) : string := text.

(** ** Basic facts *)

Section Facts.
Context `{JsonWebToken}.

Implicit Types (store : gmap string RefreshRecord.t) (rec : RefreshRecord.t).

Lemma invalidate_valid rec :
  RefreshRecord.valid (RefreshRecord.invalidate rec) = false.
Proof. reflexivity. Qed.

Lemma invalidate_invalid rec :
  RefreshRecord.valid rec = false → RefreshRecord.invalidate rec = rec.
Proof. destruct rec as [j s f v e]; simpl; by intros ->. Qed.

Lemma revokeFamily_lookup subject store k :
  revokeFamily subject store !! k = revoked subject <$> store !! k.
Proof.
  unfold revokeFamily.
  cut (∀ base m : gmap string RefreshRecord.t,
         map_fold
           (λ key rec acc,
              if bool_decide (RefreshRecord.sub rec = subject)
              then <[key := RefreshRecord.invalidate rec]> acc else acc)
           base m !! k
         = match m !! k with
           | Some rec =>
               if bool_decide (RefreshRecord.sub rec = subject)
               then Some (RefreshRecord.invalidate rec) else base !! k
           | None => base !! k
           end).
  { intros Hcut. rewrite Hcut. unfold revoked.
    destruct (store !! k) as [rec|] eqn:E; simpl; [|done].
    by case_bool_decide. }
  intros base m.
  apply (map_fold_weak_ind (λ acc m', acc !! k = match m' !! k with
           | Some rec =>
               if bool_decide (RefreshRecord.sub rec = subject)
               then Some (RefreshRecord.invalidate rec) else base !! k
           | None => base !! k
           end)).
  - by rewrite lookup_empty.
  - intros i x m' acc Hi IH.
    destruct (decide (i = k)) as [->|Hne].
    + rewrite lookup_insert_eq. rewrite Hi in IH.
      case_bool_decide; [by rewrite lookup_insert_eq | done].
    + rewrite lookup_insert_ne by done.
      case_bool_decide; [by rewrite lookup_insert_ne | done].
Qed.

Lemma jwt_verify_Some token secret issuer audience now c :
  jwt_verify token secret issuer audience now = Some c →
  jws_open token secret = Some c ∧ expired c now = false
  ∧ aud (payload c) = audience ∧ iss (payload c) = issuer.
Proof.
  unfold jwt_verify. destruct (jws_open token secret) as [c'|]; [|done].
  destruct (expired c' now) eqn:E; [done|].
  repeat case_bool_decide; simpl; try done.
  by intros [= <-].
Qed.

Lemma jwt_verify_decode token secret issuer audience now c :
  jwt_verify token secret issuer audience now = Some c →
  jwt_decode token = Some c.
Proof. intros (Hopen & _)%jwt_verify_Some. by eapply jws_open_peek. Qed.

Lemma jwt_verify_empty secret issuer audience now :
  jwt_verify "" secret issuer audience now = None.
Proof.
  destruct (jwt_verify "" secret issuer audience now) as [c|] eqn:E; [|done].
  apply jwt_verify_decode in E. unfold jwt_decode in E.
  by rewrite jws_peek_empty in E.
Qed.

Lemma jwt_decode_sign p secret ttl now :
  jwt_decode (jwt_sign p secret ttl now)
  = Some {| payload := p; iat := now `div` 1000;
            exp := Some (now `div` 1000 + ttl) |}.
Proof. apply jws_peek_seal. Qed.

(** A token of the module verifies under its own secret until its expiry. *)
Lemma jwt_verify_sign p secret ttl now0 now :
  jwt_verify (jwt_sign p secret ttl now0) secret (iss p) (aud p) now
  = if bool_decide (now0 `div` 1000 + ttl ≤ now `div` 1000) then None
    else Some {| payload := p; iat := now0 `div` 1000;
                 exp := Some (now0 `div` 1000 + ttl) |}.
Proof.
  unfold jwt_verify, jwt_sign. rewrite jws_open_seal. unfold expired. simpl.
  case_bool_decide; [done|]. by rewrite !bool_decide_eq_true_2.
Qed.


Lemma issueTokens_store env now rnd subject store :
  (issueTokens env now rnd subject store).2
  = <[refreshId rnd :=
        {| RefreshRecord.jti := refreshId rnd; RefreshRecord.sub := subject;
           RefreshRecord.family := familyId rnd; RefreshRecord.valid := true;
           RefreshRecord.expiresAt :=
             expiryOf (Some {| payload := refreshPayload env rnd subject;
                               iat := now `div` 1000;
                               exp := Some (now `div` 1000
                                            + REFRESH_TOKEN_TTL env) |})
                      now |}]> store.
Proof. unfold issueTokens. simpl. by rewrite jwt_decode_sign. Qed.

Lemma rotate_Return env now rnd oldToken store c rec :
  jwt_verify oldToken (JWT_REFRESH_SECRET env) (JWT_ISSUER env)
             (JWT_AUDIENCE env) now = Some c →
  type (payload c) = refresh →
  store !! jti (payload c) = Some rec →
  RefreshRecord.valid rec = true →
  rotateRefreshToken env now rnd oldToken store
  = (Return (issueTokens env now rnd (sub (payload c))
               (consumed (jti (payload c)) rec store)).1,
     (issueTokens env now rnd (sub (payload c))
        (consumed (jti (payload c)) rec store)).2).
Proof.
  intros Hv Ht Hl Hval. unfold rotateRefreshToken.
  rewrite Hv, Ht, Hl, Hval. simpl. reflexivity.
Qed.

Lemma rotate_Return_inv env now rnd oldToken store tokens store' :
  rotateRefreshToken env now rnd oldToken store = (Return tokens, store') →
  ∃ c rec,
    jwt_verify oldToken (JWT_REFRESH_SECRET env) (JWT_ISSUER env)
               (JWT_AUDIENCE env) now = Some c
    ∧ type (payload c) = refresh
    ∧ store !! jti (payload c) = Some rec
    ∧ RefreshRecord.valid rec = true.
Proof.
  unfold rotateRefreshToken.
  destruct (jwt_verify _ _ _ _ _) as [c|]; [|done].
  case_bool_decide as Ht; simpl; [|done].
  destruct (store !! jti (payload c)) as [rec|] eqn:Hl; [|done].
  destruct (RefreshRecord.valid rec) eqn:Hval; simpl; [|done].
  intros _. by exists c, rec.
Qed.

Lemma rotate_Throw_store env now rnd oldToken store m store' :
  rotateRefreshToken env now rnd oldToken store = (Throw m, store') →
  store' = store.
Proof.
  unfold rotateRefreshToken.
  destruct (jwt_verify _ _ _ _ _) as [c|]; [|by intros [= _ <-]].
  case_bool_decide as Ht; simpl; [|by intros [= _ <-]].
  destruct (store !! jti (payload c)) as [rec|] eqn:Hl; [|by intros [= _ <-]].
  destruct (RefreshRecord.valid rec) eqn:Hval; simpl; [|by intros [= _ <-]].
  done.
Qed.

End Facts.

(** ** Invariants of the ledger *)


Section Ledger.
Context `{JsonWebToken}.

Implicit Types (store : gmap string RefreshRecord.t) (rec : RefreshRecord.t).

Lemma consumed_lookup k rec store j :
  consumed k rec store !! j
  = if bool_decide (j = RefreshRecord.jti rec ∨ j = k)
    then Some (RefreshRecord.invalidate rec) else store !! j.
Proof.
  unfold consumed. simpl.
  destruct (decide (j = RefreshRecord.jti rec)) as [->|Hj].
  { rewrite lookup_insert_eq. by rewrite bool_decide_eq_true_2 by auto. }
  rewrite lookup_insert_ne by done.
  destruct (decide (j = k)) as [->|Hk].
  { rewrite lookup_insert_eq. by rewrite bool_decide_eq_true_2 by auto. }
  rewrite lookup_insert_ne by done.
  rewrite bool_decide_eq_false_2; [done | by intros [|]].
Qed.

Lemma exec_issue env now rnd subject store :
  exec env (CallIssue now rnd subject) store
  = <[refreshId rnd :=
        {| RefreshRecord.jti := refreshId rnd; RefreshRecord.sub := subject;
           RefreshRecord.family := familyId rnd; RefreshRecord.valid := true;
           RefreshRecord.expiresAt :=
             expiryOf (Some {| payload := refreshPayload env rnd subject;
                               iat := now `div` 1000;
                               exp := Some (now `div` 1000
                                            + REFRESH_TOKEN_TTL env) |})
                      now |}]> store.
Proof. apply issueTokens_store. Qed.

Lemma exec_revoke env subject store k :
  exec env (CallRevoke subject) store !! k = revoked subject <$> store !! k.
Proof. apply revokeFamily_lookup. Qed.

Lemma exec_rotate_cases env now rnd oldToken store :
  exec env (CallRotate now rnd oldToken) store = store
  ∨ ∃ c rec,
      store !! jti (payload c) = Some rec
      ∧ RefreshRecord.valid rec = true
      ∧ exec env (CallRotate now rnd oldToken) store
        = (issueTokens env now rnd (sub (payload c))
             (consumed (jti (payload c)) rec store)).2.
Proof.
  simpl.
  destruct (rotateRefreshToken env now rnd oldToken store) as [[tokens|m] s']
    eqn:E.
  - right. destruct (rotate_Return_inv _ _ _ _ _ _ _ E) as (c & rec & Hv & Ht & Hl & Hval).
    exists c, rec. repeat split; [done..|].
    rewrite (rotate_Return _ _ _ _ _ _ _ Hv Ht Hl Hval) in E.
    by injection E as _ <-.
  - left. simpl. by eapply rotate_Throw_store.
Qed.

(** A record that is invalid stays in the store and stays invalid. *)
Lemma exec_keeps_invalid env c store k rec :
  freshCall c store = true →
  store !! k = Some rec → RefreshRecord.valid rec = false →
  ∃ rec', exec env c store !! k = Some rec'
          ∧ RefreshRecord.valid rec' = false.
Proof.
  intros Hfresh Hk Hinv. destruct c as [now rnd s|now rnd t|now a|s].
  - simpl in Hfresh. apply bool_decide_eq_true in Hfresh.
    exists rec. split; [|done]. rewrite exec_issue.
    rewrite lookup_insert_ne; [done | congruence].
  - simpl in Hfresh. apply bool_decide_eq_true in Hfresh.
    destruct (exec_rotate_cases env now rnd t store)
      as [->|(c & rec0 & Hl & Hval & ->)]; [by exists rec|].
    rewrite issueTokens_store, lookup_insert_ne by congruence.
    rewrite consumed_lookup. case_bool_decide; [|by exists rec].
    by exists (RefreshRecord.invalidate rec0).
  - by exists rec.
  - exists (revoked s rec). rewrite exec_revoke, Hk.
    split; [done|]. unfold revoked. by case_bool_decide.
Qed.

Lemma run_keeps_invalid env cs store k rec :
  freshRun env cs store = true →
  store !! k = Some rec → RefreshRecord.valid rec = false →
  ∃ rec', run env cs store !! k = Some rec'
          ∧ RefreshRecord.valid rec' = false.
Proof.
  revert store rec. induction cs as [|c cs IH]; intros store rec Hfresh Hk Hinv.
  { by exists rec. }
  simpl in Hfresh. apply andb_prop in Hfresh as [Hc Hcs].
  destruct (exec_keeps_invalid env c store k rec Hc Hk Hinv) as (rec1 & Hk1 & Hinv1).
  simpl. by eapply IH.
Qed.

Lemma exec_wellKeyed env c store :
  wellKeyed store → wellKeyed (exec env c store).
Proof.
  intros Hwf. destruct c as [now rnd s|now rnd t|now a|s].
  - rewrite exec_issue. intros k rec.
    destruct (decide (k = refreshId rnd)) as [->|Hne].
    + rewrite lookup_insert_eq. by intros [= <-].
    + rewrite lookup_insert_ne by done. apply Hwf.
  - destruct (exec_rotate_cases env now rnd t store)
      as [->|(c & rec0 & Hl & Hval & ->)]; [done|].
    rewrite issueTokens_store. intros k rec.
    destruct (decide (k = refreshId rnd)) as [->|Hne].
    + rewrite lookup_insert_eq. by intros [= <-].
    + rewrite lookup_insert_ne by done. rewrite consumed_lookup.
      case_bool_decide as Hk; [|apply Hwf].
      intros [= <-]. simpl. destruct Hk as [->| ->]; [done|].
      by apply Hwf.
  - done.
  - intros k rec. rewrite exec_revoke.
    destruct (store !! k) as [rec0|] eqn:Hk; simpl; [|done].
    intros [= <-]. unfold revoked. case_bool_decide; simpl; by apply Hwf.
Qed.

Lemma run_wellKeyed env cs store :
  wellKeyed store → wellKeyed (run env cs store).
Proof.
  revert store. induction cs as [|c cs IH]; intros store Hwf; [done|].
  simpl. by apply IH, exec_wellKeyed.
Qed.

Lemma reachable_wellKeyed env store : reachable env store → wellKeyed store.
Proof.
  intros (cs & _ & <-). apply run_wellKeyed. intros k rec.
  by rewrite lookup_empty.
Qed.

Lemma reachable_exec env c store :
  reachable env store → freshCall c store = true →
  reachable env (exec env c store).
Proof.
  intros (cs & Hf & <-) Hc. exists (cs ++ [c])%list.
  assert (Hrun : ∀ cs s, run env (cs ++ [c])%list s = exec env c (run env cs s)).
  { intros cs0. induction cs0 as [|c0 cs0 IH]; intros s; [done|]. simpl. apply IH. }
  assert (Hfr : ∀ cs s, freshRun env cs s = true →
            freshCall c (run env cs s) = true →
            freshRun env (cs ++ [c])%list s = true).
  { intros cs0. induction cs0 as [|c0 cs0 IH]; intros s Hs Hcs; simpl in *.
    - by rewrite Hcs.
    - apply andb_prop in Hs as [-> Hs]. simpl. by apply IH. }
  split; [by apply Hfr | apply Hrun].
Qed.

(** On a well-keyed store an invalid record is not touched at all. *)
Lemma exec_fixes_invalid env c store k rec :
  wellKeyed store → freshCall c store = true →
  store !! k = Some rec → RefreshRecord.valid rec = false →
  exec env c store !! k = Some rec.
Proof.
  intros Hwf Hfresh Hk Hinv. destruct c as [now rnd s|now rnd t|now a|s].
  - simpl in Hfresh. apply bool_decide_eq_true in Hfresh.
    rewrite exec_issue.
    rewrite lookup_insert_ne; [done | congruence].
  - simpl in Hfresh. apply bool_decide_eq_true in Hfresh.
    destruct (exec_rotate_cases env now rnd t store)
      as [->|(c & rec0 & Hl & Hval & ->)]; [done|].
    rewrite issueTokens_store, lookup_insert_ne by congruence.
    rewrite consumed_lookup. rewrite (Hwf _ _ Hl).
    rewrite bool_decide_eq_false_2; [done|].
    intros [->| ->]; congruence.
  - done.
  - rewrite exec_revoke, Hk. simpl. f_equal.
    unfold revoked. case_bool_decide; [|done]. by apply invalidate_invalid.
Qed.

Lemma run_fixes_invalid env cs store k rec :
  wellKeyed store → freshRun env cs store = true →
  store !! k = Some rec → RefreshRecord.valid rec = false →
  run env cs store !! k = Some rec.
Proof.
  revert store. induction cs as [|c cs IH]; intros store Hwf Hfresh Hk Hinv;
    [done|].
  simpl in Hfresh. apply andb_prop in Hfresh as [Hc Hcs]. simpl.
  apply IH; [by apply exec_wellKeyed | done | by apply exec_fixes_invalid | done].
Qed.

(** No call removes a record. *)
Lemma exec_keeps_keys env c store k :
  is_Some (store !! k) → is_Some (exec env c store !! k).
Proof.
  intros [rec Hk]. destruct c as [now rnd s|now rnd t|now a|s].
  - rewrite exec_issue.
    destruct (decide (k = refreshId rnd)) as [->|Hne].
    + rewrite lookup_insert_eq. eauto.
    + rewrite lookup_insert_ne by done. eauto.
  - destruct (exec_rotate_cases env now rnd t store)
      as [->|(c & rec0 & Hl & Hval & ->)]; [eauto|].
    rewrite issueTokens_store.
    destruct (decide (k = refreshId rnd)) as [->|Hne].
    + rewrite lookup_insert_eq. eauto.
    + rewrite lookup_insert_ne by done. rewrite consumed_lookup.
      case_bool_decide; eauto.
  - simpl. eauto.
  - rewrite exec_revoke, Hk. simpl. eauto.
Qed.

End Ledger.

(** ** Properties of the token module *)

Section Properties.
Context `{JsonWebToken}.

Implicit Types (store : gmap string RefreshRecord.t) (rec : RefreshRecord.t).

(** C5. [issueTokens(subject)] registers exactly one ledger record for the
    refresh token it returns: the record sits under the token's [jti], is
    valid, carries the subject and the token's [exp] in milliseconds, no
    other entry of the store carries that [jti], and the store grows by this
    one entry. The drawn refresh id is fresh, and the signed [exp] is not
    the falsy [0] (which a non-negative TTL after the epoch never gives). *)
Theorem issueTokens_registers_record env now rnd subject store :
  wellKeyed store →
  store !! refreshId rnd = None →
  now `div` 1000 + REFRESH_TOKEN_TTL env ≠ 0 →
  ∃ c e,
    jwt_decode (refreshToken (issueTokens env now rnd subject store).1)
    = Some c
    ∧ jti (payload c) = refreshId rnd
    ∧ exp c = Some e
    ∧ let rec :=
        RefreshRecord.mk (refreshId rnd) subject (familyId rnd) true
                         (e * 1000) in
      let store' := (issueTokens env now rnd subject store).2 in
      store' !! refreshId rnd = Some rec
      ∧ (∀ k r, store' !! k = Some r →
                RefreshRecord.jti r = refreshId rnd →
                k = refreshId rnd ∧ r = rec)
      ∧ size store' = S (size store)
      ∧ ∀ k, k ≠ refreshId rnd → store' !! k = store !! k.
Proof.
  intros Hwf Hfresh Hexp.
  exists {| payload := refreshPayload env rnd subject; iat := now `div` 1000;
            exp := Some (now `div` 1000 + REFRESH_TOKEN_TTL env) |},
         (now `div` 1000 + REFRESH_TOKEN_TTL env).
  split; [apply jwt_decode_sign|]. split; [done|]. split; [done|].
  cbv zeta. rewrite issueTokens_store. unfold expiryOf. simpl.
  rewrite bool_decide_eq_false_2 by done.
  split; [by rewrite lookup_insert_eq|]. split; [|split].
  - intros k r. destruct (decide (k = refreshId rnd)) as [->|Hne].
    + rewrite lookup_insert_eq. by intros [= <-].
    + rewrite lookup_insert_ne by done. intros Hk Hj.
      by rewrite (Hwf _ _ Hk) in Hj.
  - by apply map_size_insert_None.
  - intros k Hne. by rewrite lookup_insert_ne.
Qed.

(** C1 (as amended). Rotation is single-use. A refresh token that verifies
    and whose ledger record is valid is rotated successfully; after that,
    whatever further calls the module serves, presenting the same token
    again throws and leaves the store as it is. The error is
    [refresh_reused_or_revoked] as long as the clock has not reached the
    token's [exp], and [invalid_refresh] from then on: the token is verified
    before the ledger is read. *)
Theorem rotate_single_use env now1 rnd1 r c rec store :
  jwt_verify r (JWT_REFRESH_SECRET env) (JWT_ISSUER env) (JWT_AUDIENCE env)
             now1 = Some c →
  type (payload c) = refresh →
  store !! jti (payload c) = Some rec →
  RefreshRecord.valid rec = true →
  store !! refreshId rnd1 = None →
  ∃ tokens store1,
    rotateRefreshToken env now1 rnd1 r store = (Return tokens, store1)
    ∧ ∀ cs now2 rnd2,
        freshRun env cs store1 = true →
        rotateRefreshToken env now2 rnd2 r (run env cs store1)
        = (Throw (if expired c now2 then "invalid_refresh"
                  else "refresh_reused_or_revoked"),
           run env cs store1).
Proof.
  intros Hv Ht Hl Hval Hfresh.
  eexists _, _. split; [by apply rotate_Return|].
  intros cs now2 rnd2 Hcs.
  set (store1 := (issueTokens env now1 rnd1 (sub (payload c))
                    (consumed (jti (payload c)) rec store)).2) in *.
  assert (Hold : store1 !! jti (payload c)
                 = Some (RefreshRecord.invalidate rec)).
  { unfold store1. rewrite issueTokens_store.
    rewrite lookup_insert_ne by congruence.
    rewrite consumed_lookup. by rewrite bool_decide_eq_true_2 by auto. }
  destruct (run_keeps_invalid env cs store1 _ _ Hcs Hold eq_refl)
    as (rec2 & Hl2 & Hinv2).
  apply jwt_verify_Some in Hv as (Ho & _ & Haud & Hiss).
  unfold rotateRefreshToken, jwt_verify. rewrite Ho.
  destruct (expired c now2); [done|].
  rewrite !bool_decide_eq_true_2 by done. simpl.
  by rewrite Ht, Hl2, Hinv2.
Qed.

(** C3. Monotonic consumption. From any store the module can reach, no
    sequence of calls (issue, rotate, authenticate, revoke; refresh ids
    fresh) brings an invalid record back: the record stays in the store
    exactly as it is, so [valid] never goes from false to true and the one
    true-to-false step a record takes is final. *)
Theorem invalid_is_terminal env store cs k rec :
  reachable env store →
  freshRun env cs store = true →
  store !! k = Some rec →
  RefreshRecord.valid rec = false →
  run env cs store !! k = Some rec.
Proof.
  intros Hreach. apply run_fixes_invalid. by eapply reachable_wellKeyed.
Qed.

(** C9. A token that fails verification against the refresh secret, or that
    verifies but is not of type refresh, makes [rotateRefreshToken] throw
    [invalid_refresh] with the store exactly as it was. *)
Theorem rotate_decode_failure_atomic env now rnd oldToken store :
  jwt_verify oldToken (JWT_REFRESH_SECRET env) (JWT_ISSUER env)
             (JWT_AUDIENCE env) now = None
  ∨ (∃ c, jwt_verify oldToken (JWT_REFRESH_SECRET env) (JWT_ISSUER env)
                     (JWT_AUDIENCE env) now = Some c
          ∧ type (payload c) ≠ refresh) →
  rotateRefreshToken env now rnd oldToken store
  = (Throw "invalid_refresh", store).
Proof.
  unfold rotateRefreshToken. intros [->|(c & -> & Ht)]; [done|].
  by rewrite bool_decide_eq_false_2.
Qed.

(** C8. [revokeFamily] is idempotent, and a no-op on a store that holds no
    record of the subject. *)
Theorem revokeFamily_idempotent subject store :
  revokeFamily subject (revokeFamily subject store)
  = revokeFamily subject store
  ∧ ((∀ k rec, store !! k = Some rec → RefreshRecord.sub rec ≠ subject) →
     revokeFamily subject store = store).
Proof.
  split.
  - apply map_eq. intros k. rewrite !revokeFamily_lookup.
    destruct (store !! k) as [rec|]; simpl; [|done]. f_equal.
    unfold revoked.
    destruct (bool_decide (RefreshRecord.sub rec = subject)) eqn:Hs; simpl;
      by rewrite Hs.
  - intros Hnone. apply map_eq. intros k. rewrite revokeFamily_lookup.
    destruct (store !! k) as [rec|] eqn:Hk; simpl; [|done]. f_equal.
    unfold revoked. rewrite bool_decide_eq_false_2; [done|]. by eapply Hnone.
Qed.

(** C7. Revocation is subject-scoped and total. After
    [revokeFamily(subject)] every record of the subject is the same record
    with [valid = false], a refresh token whose record belongs to the
    subject is rejected by rotation with [refresh_reused_or_revoked], every
    record of another subject is unchanged, and no key appears. *)
Theorem revokeFamily_scoped_total env subject store :
  (∀ k rec, store !! k = Some rec → RefreshRecord.sub rec = subject →
     revokeFamily subject store !! k = Some (RefreshRecord.invalidate rec))
  ∧ (∀ now rnd r c rec,
       jwt_verify r (JWT_REFRESH_SECRET env) (JWT_ISSUER env)
                  (JWT_AUDIENCE env) now = Some c →
       type (payload c) = refresh →
       store !! jti (payload c) = Some rec →
       RefreshRecord.sub rec = subject →
       rotateRefreshToken env now rnd r (revokeFamily subject store)
       = (Throw "refresh_reused_or_revoked", revokeFamily subject store))
  ∧ (∀ k rec, store !! k = Some rec → RefreshRecord.sub rec ≠ subject →
       revokeFamily subject store !! k = Some rec)
  ∧ (∀ k, store !! k = None → revokeFamily subject store !! k = None).
Proof.
  assert (Hmine : ∀ k rec, store !! k = Some rec →
            RefreshRecord.sub rec = subject →
            revokeFamily subject store !! k
            = Some (RefreshRecord.invalidate rec)).
  { intros k rec Hk Hs. rewrite revokeFamily_lookup, Hk. simpl.
    unfold revoked. by rewrite bool_decide_eq_true_2. }
  split; [done|]. split; [|split].
  - intros now rnd r c rec Hv Ht Hl Hs. unfold rotateRefreshToken.
    by rewrite Hv, Ht, (Hmine _ _ Hl Hs).
  - intros k rec Hk Hs. rewrite revokeFamily_lookup, Hk. simpl.
    unfold revoked. by rewrite bool_decide_eq_false_2.
  - intros k Hk. by rewrite revokeFamily_lookup, Hk.
Qed.

Lemma substring_all (t : string) : String.substring 0 (String.length t) t = t.
Proof. induction t as [|a t IH]; simpl; [done | by rewrite IH]. Qed.

Lemma bearerToken_Bearer (token : string) :
  bearerToken ("Bearer " ++ token) = token.
Proof.
  unfold bearerToken.
  assert (String.prefix "Bearer " ("Bearer " ++ token) = true) as ->
    by (by destruct token).
  change ("Bearer " ++ token)
    with (String "B" (String "e" (String "a" (String "r" (String "e"
            (String "r" (String " " token))))))).
  cbn [String.length String.substring Nat.sub].
  rewrite Nat.sub_0_r. apply substring_all.
Qed.


(** C4. Rotation preserves the subject. If [r] is the refresh token
    [issueTokens] returned for [subject], a successful rotation of [r]
    returns an access token and a refresh token whose claim sets carry
    [subject]; so does whatever [jwt.verify] later reads from the new access
    token. *)
Theorem rotate_preserves_subject env now0 rnd0 subject store0
    now1 rnd1 store tokens store' :
  rotateRefreshToken env now1 rnd1
    (refreshToken (issueTokens env now0 rnd0 subject store0).1) store
  = (Return tokens, store') →
  (∃ ca, jwt_decode (accessToken tokens) = Some ca
         ∧ sub (payload ca) = subject ∧ type (payload ca) = access)
  ∧ (∃ cr, jwt_decode (refreshToken tokens) = Some cr
           ∧ sub (payload cr) = subject ∧ type (payload cr) = refresh)
  ∧ ∀ now2 c,
      jwt_verify (accessToken tokens) (JWT_ACCESS_SECRET env)
                 (JWT_ISSUER env) (JWT_AUDIENCE env) now2 = Some c →
      sub (payload c) = subject.
Proof.
  intros Hrot.
  destruct (rotate_Return_inv _ _ _ _ _ _ _ Hrot)
    as (c & rec & Hv & Ht & Hl & Hval).
  rewrite (rotate_Return _ _ _ _ _ _ _ Hv Ht Hl Hval) in Hrot.
  injection Hrot as <- _.
  apply jwt_verify_Some in Hv as (Hopen & _).
  unfold issueTokens in Hopen. simpl in Hopen. unfold jwt_sign in Hopen.
  rewrite jws_open_seal in Hopen. injection Hopen as <-. simpl.
  unfold issueTokens. simpl. split; [|split].
  - eexists. split; [apply jwt_decode_sign | done].
  - eexists. split; [apply jwt_decode_sign | done].
  - intros now2 c Hv2. apply jwt_verify_decode in Hv2.
    rewrite jwt_decode_sign in Hv2. by injection Hv2 as <-.
Qed.

Lemma validCount_consume subject k rec store :
  store !! k = Some rec →
  redeemable subject rec = true →
  S (validCount subject (<[k := RefreshRecord.invalidate rec]> store))
  = validCount subject store.
Proof.
  intros Hk Hred. unfold validCount.
  rewrite map_filter_insert_False.
  2:{ simpl. unfold redeemable. simpl. by rewrite andb_false_r. }
  rewrite map_filter_delete.
  set (live := filter (λ kv, redeemable subject kv.2 = true) store).
  assert (Hlive : live !! k = Some rec) by by apply map_lookup_filter_Some_2.
  rewrite <- (insert_id live k rec Hlive) at 2.
  rewrite <- insert_delete_eq.
  symmetry. apply map_size_insert_None, lookup_delete_eq.
Qed.

Lemma validCount_register subject k rec store :
  store !! k = None →
  redeemable subject rec = true →
  validCount subject (<[k := rec]> store) = S (validCount subject store).
Proof.
  intros Hk Hred. unfold validCount.
  rewrite map_filter_insert_True by done.
  apply map_size_insert_None. by apply map_lookup_filter_None_2; left.
Qed.

(** What a successful rotation does to the store, for a token whose record
    sits under its own [jti] and belongs to the token's subject. *)
Lemma rotate_effect env now rnd r c rec store :
  jwt_verify r (JWT_REFRESH_SECRET env) (JWT_ISSUER env) (JWT_AUDIENCE env)
             now = Some c →
  type (payload c) = refresh →
  store !! jti (payload c) = Some rec →
  RefreshRecord.valid rec = true →
  RefreshRecord.jti rec = jti (payload c) →
  RefreshRecord.sub rec = sub (payload c) →
  store !! refreshId rnd = None →
  ∃ tokens store' rec',
    rotateRefreshToken env now rnd r store = (Return tokens, store')
    ∧ store' !! jti (payload c) = Some (RefreshRecord.invalidate rec)
    ∧ store' !! refreshId rnd = Some rec'
    ∧ RefreshRecord.valid rec' = true
    ∧ RefreshRecord.sub rec' = sub (payload c)
    ∧ (∀ k, k ≠ jti (payload c) → k ≠ refreshId rnd →
            store' !! k = store !! k)
    ∧ size store' = S (size store)
    ∧ validCount (sub (payload c)) store' = validCount (sub (payload c)) store.
Proof.
  intros Hv Ht Hl Hval Hjti Hsub Hfresh.
  assert (Hne : refreshId rnd ≠ jti (payload c)) by congruence.
  eexists _, _, _. split; [by apply rotate_Return|].
  rewrite issueTokens_store. unfold consumed. simpl. rewrite Hjti.
  rewrite insert_insert_eq.
  split; [by rewrite lookup_insert_ne, lookup_insert_eq|].
  split; [by rewrite lookup_insert_eq|]. split; [done|]. split; [done|].
  split; [|split].
  - intros k Hk1 Hk2. by rewrite !lookup_insert_ne.
  - rewrite map_size_insert_None by by rewrite lookup_insert_ne.
    f_equal. apply map_size_insert_Some. eauto.
  - assert (Hred : redeemable (sub (payload c)) rec = true).
    { unfold redeemable. by rewrite Hval, bool_decide_eq_true_2. }
    rewrite validCount_register.
    + by apply validCount_consume.
    + by rewrite lookup_insert_ne.
    + unfold redeemable. simpl. by rewrite bool_decide_eq_true_2.
Qed.

(** C10. A successful rotation keeps the number of valid records of the
    rotating subject. For a token the ledger agrees with (its record sits
    under its [jti] for its subject, as for every token the module handed
    out) and a fresh refresh id: the presented token's record, valid before,
    becomes the same record with [valid = false]; one new valid record for
    the same subject is registered under the new id; every other key keeps
    its record; the store grows by one entry. *)
Theorem rotate_preserves_valid_count env now rnd r store tokens store' :
  rotateRefreshToken env now rnd r store = (Return tokens, store') →
  agrees store r →
  store !! refreshId rnd = None →
  ∃ c rec rec',
    jwt_decode r = Some c
    ∧ store !! jti (payload c) = Some rec
    ∧ RefreshRecord.valid rec = true
    ∧ store' !! jti (payload c) = Some (RefreshRecord.invalidate rec)
    ∧ store' !! refreshId rnd = Some rec'
    ∧ RefreshRecord.valid rec' = true
    ∧ RefreshRecord.sub rec' = sub (payload c)
    ∧ (∀ k, k ≠ jti (payload c) → k ≠ refreshId rnd →
            store' !! k = store !! k)
    ∧ size store' = S (size store)
    ∧ validCount (sub (payload c)) store' = validCount (sub (payload c)) store.
Proof.
  intros Hrot (c0 & rec0 & Hd0 & Hl0 & Hj0 & Hs0) Hfresh.
  destruct (rotate_Return_inv _ _ _ _ _ _ _ Hrot)
    as (c & rec & Hv & Ht & Hl & Hval).
  pose proof (jwt_verify_decode _ _ _ _ _ _ Hv) as Hd.
  assert (c0 = c) as -> by congruence.
  assert (rec0 = rec) as -> by congruence.
  destruct (rotate_effect env now rnd r c rec store Hv Ht Hl Hval Hj0 Hs0
              Hfresh)
    as (tokens1 & store1 & rec' & Hrot1 & Hold & Hnew & Hvalid & Hsub
        & Hframe & Hsize & Hcount).
  rewrite Hrot in Hrot1. injection Hrot1 as <- <-.
  exists c, rec, rec'. done.
Qed.

(** What the rotation registers takes its [family] from the identifiers
    drawn for the new pair, not from the record it replaces. *)
Lemma rotate_new_record_family env now rnd r store tokens store' :
  rotateRefreshToken env now rnd r store = (Return tokens, store') →
  RefreshRecord.family <$> store' !! refreshId rnd = Some (familyId rnd).
Proof.
  intros Hrot.
  destruct (rotate_Return_inv _ _ _ _ _ _ _ Hrot)
    as (c & rec & Hv & Ht & Hl & Hval).
  rewrite (rotate_Return _ _ _ _ _ _ _ Hv Ht Hl Hval) in Hrot.
  injection Hrot as _ <-. by rewrite lookup_insert_eq.
Qed.

End Properties.

(** ** Tokens the module handed out *)

Section Minted.
Context `{JsonWebToken}.

Implicit Types (store : gmap string RefreshRecord.t) (rec : RefreshRecord.t).

(** Until it expires, the refresh token of [issueTokens] verifies, and its
    record is valid and agrees with it. *)
Lemma issueTokens_redeemable env now0 rnd subject store now1 :
  now1 `div` 1000 < now0 `div` 1000 + REFRESH_TOKEN_TTL env →
  ∃ c rec,
    jwt_verify (refreshToken (issueTokens env now0 rnd subject store).1)
               (JWT_REFRESH_SECRET env) (JWT_ISSUER env) (JWT_AUDIENCE env)
               now1 = Some c
    ∧ payload c = refreshPayload env rnd subject
    ∧ (issueTokens env now0 rnd subject store).2 !! refreshId rnd = Some rec
    ∧ RefreshRecord.valid rec = true
    ∧ RefreshRecord.sub rec = subject
    ∧ RefreshRecord.jti rec = refreshId rnd.
Proof.
  intros Hlive. eexists _, _. split.
  { unfold issueTokens. simpl.
    change (JWT_ISSUER env) with (iss (refreshPayload env rnd subject)).
    change (JWT_AUDIENCE env) with (aud (refreshPayload env rnd subject)).
    rewrite jwt_verify_sign. rewrite bool_decide_eq_false_2 by lia. done. }
  split; [done|]. rewrite issueTokens_store, lookup_insert_eq. done.
Qed.

Lemma jwt_sign_nonempty p secret ttl now : jwt_sign p secret ttl now ≠ "".
Proof.
  intros Heq. pose proof (jwt_decode_sign p secret ttl now) as Hd.
  rewrite Heq in Hd. unfold jwt_decode in Hd. by rewrite jws_peek_empty in Hd.
Qed.


Lemma exec_agrees env c store token :
  wellKeyed store → freshCall c store = true →
  agrees store token → agrees (exec env c store) token.
Proof.
  intros Hwf Hfresh (cl & rec & Hd & Hl & Hj & Hs).
  destruct c as [now rnd s|now rnd t|now a|s].
  - simpl in Hfresh. apply bool_decide_eq_true in Hfresh.
    exists cl, rec. rewrite exec_issue.
    rewrite lookup_insert_ne by congruence. done.
  - simpl in Hfresh. apply bool_decide_eq_true in Hfresh.
    destruct (exec_rotate_cases env now rnd t store)
      as [->|(c0 & rec0 & Hl0 & Hval0 & ->)]; [by exists cl, rec|].
    rewrite issueTokens_store.
    pose proof (Hwf _ _ Hl0) as Hkey.
    destruct (decide (jti (payload cl) = jti (payload c0))) as [Heq|Hneq].
    + exists cl, (RefreshRecord.invalidate rec0).
      rewrite Heq in Hl. assert (rec0 = rec) as -> by congruence.
      rewrite lookup_insert_ne by congruence.
      rewrite consumed_lookup, bool_decide_eq_true_2 by auto. done.
    + exists cl, rec. rewrite lookup_insert_ne by congruence.
      rewrite consumed_lookup, bool_decide_eq_false_2; [done|].
      rewrite Hkey. by intros [|].
  - by exists cl, rec.
  - exists cl, (revoked s rec). rewrite exec_revoke, Hl.
    split; [done|]. split; [done|]. unfold revoked.
    by destruct (bool_decide (RefreshRecord.sub rec = s)).
Qed.

Lemma mintedBy_agrees env c store token :
  token ∈ mintedBy env c store → agrees (exec env c store) token.
Proof.
  destruct c as [now rnd s|now rnd t|now a|s]; simpl mintedBy.
  - intros ->%list_elem_of_singleton. eexists _, _.
    split; [apply jwt_decode_sign|]. rewrite exec_issue. simpl.
    by rewrite lookup_insert_eq.
  - destruct (rotateRefreshToken env now rnd t store) as [[tokens|m] s']
      eqn:E; simpl; [|by intros ?%elem_of_nil].
    intros ->%list_elem_of_singleton.
    destruct (rotate_Return_inv _ _ _ _ _ _ _ E)
      as (c & rec & Hv & Ht & Hl & Hval).
    unfold exec.
    rewrite (rotate_Return _ _ _ _ _ _ _ Hv Ht Hl Hval) in E |- *.
    injection E as <- _. eexists _, _.
    split; [apply jwt_decode_sign|]. rewrite issueTokens_store. simpl.
    by rewrite lookup_insert_eq.
  - by intros ?%elem_of_nil.
  - by intros ?%elem_of_nil.
Qed.

Lemma run_agrees env cs store token :
  wellKeyed store → freshRun env cs store = true →
  agrees store token → agrees (run env cs store) token.
Proof.
  revert store. induction cs as [|c cs IH]; intros store Hwf Hfresh Hag;
    [done|].
  simpl in Hfresh. apply andb_prop in Hfresh as [Hc Hcs]. simpl.
  apply IH; [by apply exec_wellKeyed | done | by apply exec_agrees].
Qed.

(** Every refresh token the module handed out has a ledger record under its
    [jti], for its subject. *)
Lemma minted_agree env cs store token :
  wellKeyed store → freshRun env cs store = true →
  token ∈ minted env cs store → agrees (run env cs store) token.
Proof.
  revert store. induction cs as [|c cs IH]; intros store Hwf Hfresh Hin.
  { by apply elem_of_nil in Hin. }
  simpl in Hfresh. apply andb_prop in Hfresh as [Hc Hcs].
  simpl in Hin. apply elem_of_app in Hin as [Hin|Hin]; simpl.
  - apply run_agrees; [by apply exec_wellKeyed | done |].
    by apply mintedBy_agrees.
  - apply IH; [by apply exec_wellKeyed | done..].
Qed.

End Minted.

(** ** The session, checked *)

(** C2. Every refresh credential derived from one login carries the same
    lineage id. Evaluated on the session: the login registers ["r1"] with
    family ["f1"]; rotating its refresh token succeeds and registers ["r2"]
    with the newly drawn family ["f2"], so the two records of one chain
    carry different families. *)
Theorem rotation_changes_family :
  demoRotation = (Return demoRotated.1, demoRotated.2)
  ∧ RefreshRecord.family <$> demoLogin.2 !! "r1" = Some "f1"
  ∧ RefreshRecord.family <$> demoRotated.2 !! "r1" = Some "f1"
  ∧ RefreshRecord.family <$> demoRotated.2 !! "r2" = Some "f2".
Proof. repeat split; vm_compute; reflexivity. Qed.

(** The login registers ["r1"] on the empty ledger. *)
Lemma issueTokens_registers_record_witness :
  ∃ c e,
    jwt_decode (refreshToken demoLogin.1) = Some c
    ∧ jti (payload c) = "r1"
    ∧ exp c = Some e
    ∧ demoLogin.2 !! "r1"
      = Some (RefreshRecord.mk "r1" "app-1" "f1" true (e * 1000))
    ∧ size demoLogin.2 = 1%nat.
Proof.
  assert (Hwf : wellKeyed (∅ : gmap string RefreshRecord.t)).
  { intros k rec Hk. rewrite lookup_empty in Hk. discriminate Hk. }
  assert (Hexp : demoClock `div` 1000 + REFRESH_TOKEN_TTL demoEnv ≠ 0).
  { vm_compute. discriminate. }
  destruct (issueTokens_registers_record demoEnv demoClock draws1 "app-1" ∅
              Hwf eq_refl Hexp)
    as (c & e & Hd & Hj & He & Hrec & _ & Hsize & _).
  exists c, e.
  exact (conj Hd (conj Hj (conj He (conj Hrec Hsize)))).
Defined.

(** The login's refresh token rotates once; any replay throws. *)
Lemma rotate_single_use_witness :
  ∃ tokens store1,
    demoRotation = (Return tokens, store1)
    ∧ ∀ cs now2 rnd2,
        freshRun demoEnv cs store1 = true →
        rotateRefreshToken demoEnv now2 rnd2 (refreshToken demoLogin.1)
                           (run demoEnv cs store1)
        = (Throw (if expired demoClaims now2 then "invalid_refresh"
                  else "refresh_reused_or_revoked"),
           run demoEnv cs store1).
Proof.
  refine (rotate_single_use demoEnv (demoClock + 5000) draws2
            (refreshToken demoLogin.1) demoClaims demoRecord demoLogin.2
            _ _ _ _ _);
    vm_compute; reflexivity.
Defined.

(** C1 as first stated, every replay answered [refresh_reused_or_revoked],
    fails on the session: the login's refresh token is rotated five seconds
    after the login, and presented again seven days after the login, when
    its [exp] has come, it is answered [invalid_refresh]. *)
Lemma replay_after_expiry_not_reused :
  rotateRefreshToken demoEnv (demoClock + 5000) draws2
                     (refreshToken demoLogin.1) demoLogin.2
  = (Return demoRotated.1, demoRotated.2)
  ∧ rotateRefreshToken demoEnv (demoClock + 604800000) draws3
                       (refreshToken demoLogin.1) demoRotated.2
    = (Throw "invalid_refresh", demoRotated.2)
  ∧ rotateRefreshToken demoEnv (demoClock + 604800000) draws3
                       (refreshToken demoLogin.1) demoRotated.2
    ≠ (Throw "refresh_reused_or_revoked", demoRotated.2).
Proof.
  assert (Hreplay :
            rotateRefreshToken demoEnv (demoClock + 604800000) draws3
                               (refreshToken demoLogin.1) demoRotated.2
            = (Throw "invalid_refresh", demoRotated.2)).
  { vm_compute; reflexivity. }
  split; [vm_compute; reflexivity|]. split; [exact Hreplay|].
  rewrite Hreplay. intros Heq. discriminate Heq.
Qed.

(** After the rotation, ["r1"] stays consumed through a revocation, a
    replay, an authentication and a new login. *)
Lemma invalid_is_terminal_witness :
  run demoEnv
      [CallRevoke "app-1";
       CallRotate (demoClock + 9000) draws3 (refreshToken demoLogin.1);
       CallAuthenticate (demoClock + 9500) None;
       CallIssue (demoClock + 9900) draws3 "app-1"]
      demoRotated.2 !! "r1"
  = Some (RefreshRecord.invalidate demoRecord).
Proof.
  apply invalid_is_terminal.
  - exists [CallIssue demoClock draws1 "app-1";
            CallRotate (demoClock + 5000) draws2 (refreshToken demoLogin.1)].
    split; vm_compute; reflexivity.
  - vm_compute; reflexivity.
  - vm_compute; reflexivity.
  - reflexivity.
Defined.

(** An access token fails verification against the refresh secret. *)
Lemma rotate_decode_failure_atomic_witness :
  rotateRefreshToken demoEnv demoClock draws2 (accessToken demoLogin.1)
                     demoLogin.2
  = (Throw "invalid_refresh", demoLogin.2).
Proof.
  apply rotate_decode_failure_atomic. left. vm_compute; reflexivity.
Defined.

(** Revoking ["app-1"] twice, and revoking a subject without records. *)
Lemma revokeFamily_idempotent_witness :
  revokeFamily "app-1" (revokeFamily "app-1" twoSubjects)
  = revokeFamily "app-1" twoSubjects
  ∧ revokeFamily "app-3" twoSubjects = twoSubjects.
Proof.
  split.
  - exact (proj1 (revokeFamily_idempotent "app-1" twoSubjects)).
  - apply (proj2 (revokeFamily_idempotent "app-3" twoSubjects)).
    intros k rec. unfold twoSubjects, demoLogin.
    rewrite !issueTokens_store.
    destruct (decide (k = "r2")) as [->|Hk2].
    { rewrite lookup_insert_eq. intros [= <-]. discriminate. }
    rewrite lookup_insert_ne by (intros Heq; apply Hk2; symmetry; exact Heq).
    destruct (decide (k = "r1")) as [->|Hk1].
    { rewrite lookup_insert_eq. intros [= <-]. discriminate. }
    rewrite lookup_insert_ne by (intros Heq; apply Hk1; symmetry; exact Heq).
    rewrite lookup_empty. discriminate.
Defined.

(** Revoking ["app-1"] on the ledger with two subjects. *)
Lemma revokeFamily_scoped_total_witness :
  revokeFamily "app-1" twoSubjects !! "r1"
  = Some (RefreshRecord.invalidate demoRecord)
  ∧ rotateRefreshToken demoEnv (demoClock + 5000) draws3
                       (refreshToken demoLogin.1)
                       (revokeFamily "app-1" twoSubjects)
    = (Throw "refresh_reused_or_revoked", revokeFamily "app-1" twoSubjects)
  ∧ revokeFamily "app-1" twoSubjects !! "r2" = twoSubjects !! "r2"
  ∧ revokeFamily "app-1" twoSubjects !! "r3" = None.
Proof.
  destruct (revokeFamily_scoped_total demoEnv "app-1" twoSubjects)
    as (Hmine & Hrot & Hother & Hnone).
  split; [|split; [|split]].
  - apply Hmine; vm_compute; reflexivity.
  - apply (Hrot (demoClock + 5000) draws3 (refreshToken demoLogin.1)
             demoClaims demoRecord); vm_compute; reflexivity.
  - transitivity (Some (RefreshRecord.mk "r2" "app-2" "f2" true 1700604800000)).
    + apply Hother; [vm_compute; reflexivity | discriminate].
    + vm_compute; reflexivity.
  - apply Hnone. vm_compute; reflexivity.
Defined.



(** The rotated pair of the session is for ["app-1"]. *)
Lemma rotate_preserves_subject_witness :
  rotateRefreshToken demoEnv (demoClock + 5000) draws2
    (refreshToken (issueTokens demoEnv demoClock draws1 "app-1" ∅).1)
    demoLogin.2
  = (Return demoRotated.1, demoRotated.2)
  ∧ (∃ ca, jwt_decode (accessToken demoRotated.1) = Some ca
           ∧ sub (payload ca) = "app-1" ∧ type (payload ca) = access)
  ∧ (∃ cr, jwt_decode (refreshToken demoRotated.1) = Some cr
           ∧ sub (payload cr) = "app-1" ∧ type (payload cr) = refresh).
Proof.
  assert (Hrot :
            rotateRefreshToken demoEnv (demoClock + 5000) draws2
              (refreshToken
                 (issueTokens demoEnv demoClock draws1 "app-1" ∅).1)
              demoLogin.2
            = (Return demoRotated.1, demoRotated.2)).
  { vm_compute; reflexivity. }
  destruct (rotate_preserves_subject demoEnv demoClock draws1 "app-1" ∅
              (demoClock + 5000) draws2 demoLogin.2
              demoRotated.1 demoRotated.2 Hrot)
    as (Ha & Hr & _).
  split; [exact Hrot|]. split; [exact Ha | exact Hr].
Defined.

(** The rotation of the session: ["r1"] consumed, ["r2"] registered. *)
Lemma rotate_preserves_valid_count_witness :
  ∃ c rec rec',
    jwt_decode (refreshToken demoLogin.1) = Some c
    ∧ demoLogin.2 !! jti (payload c) = Some rec
    ∧ RefreshRecord.valid rec = true
    ∧ demoRotated.2 !! jti (payload c) = Some (RefreshRecord.invalidate rec)
    ∧ demoRotated.2 !! "r2" = Some rec'
    ∧ RefreshRecord.valid rec' = true
    ∧ RefreshRecord.sub rec' = sub (payload c)
    ∧ (∀ k, k ≠ jti (payload c) → k ≠ "r2" →
            demoRotated.2 !! k = demoLogin.2 !! k)
    ∧ size demoRotated.2 = S (size demoLogin.2)
    ∧ validCount (sub (payload c)) demoRotated.2
      = validCount (sub (payload c)) demoLogin.2.
Proof.
  refine (rotate_preserves_valid_count demoEnv (demoClock + 5000) draws2
            (refreshToken demoLogin.1) demoLogin.2
            demoRotated.1 demoRotated.2 _ _ _).
  - vm_compute; reflexivity.
  - exists demoClaims, demoRecord. repeat split; vm_compute; reflexivity.
  - vm_compute; reflexivity.
Defined.

(** ** Further properties of the token module *)

Section TokenModule.
Context `{JsonWebToken}.

Implicit Types (store : gmap string RefreshRecord.t) (rec : RefreshRecord.t).

Lemma jwt_verify_sign_claims p secret issuer audience ttl now0 now :
  iss p ≠ issuer ∨ aud p ≠ audience →
  jwt_verify (jwt_sign p secret ttl now0) secret issuer audience now = None.
Proof.
  intros Hne. unfold jwt_verify, jwt_sign. rewrite jws_open_seal.
  destruct (expired _ now); [done|]. simpl.
  destruct Hne as [Hi|Ha].
  - case_bool_decide; simpl; [|done]. by rewrite bool_decide_eq_false_2.
  - by rewrite bool_decide_eq_false_2.
Qed.

(** X1. The access token of [issueTokens], sent as a bearer token, passes
    [authenticateJwt] with the claim set it was signed with until the clock
    reaches its [exp]; from then on the answer is 401 [invalid_token]. *)
Theorem authenticate_issued_access env now0 rnd subject store now :
  authenticateJwt env now
    (Some ("Bearer "
           ++ accessToken (issueTokens env now0 rnd subject store).1))
  = if bool_decide (now0 `div` 1000 + ACCESS_TOKEN_TTL env ≤ now `div` 1000)
    then Status401 "invalid_token"
    else Next {| payload := accessPayload env rnd subject;
                 iat := now0 `div` 1000;
                 exp := Some (now0 `div` 1000 + ACCESS_TOKEN_TTL env) |}.
Proof.
  unfold authenticateJwt. simpl default. rewrite bearerToken_Bearer.
  unfold issueTokens. simpl.
  rewrite bool_decide_eq_false_2 by apply jwt_sign_nonempty.
  change (JWT_ISSUER env) with (iss (accessPayload env rnd subject)).
  change (JWT_AUDIENCE env) with (aud (accessPayload env rnd subject)).
  rewrite jwt_verify_sign. by case_bool_decide.
Qed.

(** X2. Without a bearer token nothing is verified: an absent header, a header
    that does not start with ["Bearer "] (the scheme is matched literally,
    with its space) and the bare scheme all get 401 [missing_token]. *)
Theorem authenticate_missing_token env now authorization :
  authorization = None
  ∨ (∃ auth, authorization = Some auth
             ∧ (String.prefix "Bearer " auth = false ∨ auth = "Bearer ")) →
  authenticateJwt env now authorization = Status401 "missing_token".
Proof.
  unfold authenticateJwt, bearerToken.
  intros [->|(auth & -> & [Hp| ->])]; simpl default.
  - done.
  - by rewrite Hp.
  - done.
Qed.

(** X6. A refresh token of the module whose [exp] the clock has reached is
    turned away with [invalid_refresh], whatever the ledger says about it;
    the ledger is not touched. *)
Theorem rotate_expired_refresh env now0 rnd0 subject store0 now rnd store :
  now0 `div` 1000 + REFRESH_TOKEN_TTL env ≤ now `div` 1000 →
  rotateRefreshToken env now rnd
    (refreshToken (issueTokens env now0 rnd0 subject store0).1) store
  = (Throw "invalid_refresh", store).
Proof.
  intros Hexp. unfold rotateRefreshToken, issueTokens. simpl.
  change (JWT_ISSUER env) with (iss (refreshPayload env rnd0 subject)).
  change (JWT_AUDIENCE env) with (aud (refreshPayload env rnd0 subject)).
  rewrite jwt_verify_sign. by rewrite bool_decide_eq_true_2.
Qed.

(** X5. [rotateRefreshToken] has three outcomes: it returns a pair, or it throws
    [invalid_refresh] or [refresh_reused_or_revoked]; when it throws, the
    ledger is exactly what it was. *)
Theorem rotate_outcome env now rnd oldToken store :
  (∃ tokens store',
     rotateRefreshToken env now rnd oldToken store = (Return tokens, store'))
  ∨ rotateRefreshToken env now rnd oldToken store
    = (Throw "invalid_refresh", store)
  ∨ rotateRefreshToken env now rnd oldToken store
    = (Throw "refresh_reused_or_revoked", store).
Proof.
  destruct (jwt_verify oldToken (JWT_REFRESH_SECRET env) (JWT_ISSUER env)
              (JWT_AUDIENCE env) now) as [c|] eqn:Hv.
  - destruct (decide (type (payload c) = refresh)) as [Ht|Ht].
    + destruct (store !! jti (payload c)) as [rec|] eqn:Hl.
      * destruct (RefreshRecord.valid rec) eqn:Hval.
        -- left. eexists _, _. by apply rotate_Return.
        -- right; right. unfold rotateRefreshToken.
           by rewrite Hv, Ht, Hl, Hval.
      * right; right. unfold rotateRefreshToken. by rewrite Hv, Ht, Hl.
    + right; left. unfold rotateRefreshToken. rewrite Hv.
      by rewrite bool_decide_eq_false_2.
  - right; left. unfold rotateRefreshToken. by rewrite Hv.
Qed.

(** X7. A token whose [jti] the ledger does not hold is never rotated, however
    well it verifies: so after a restart, with the ledger empty again, no
    refresh token issued before can be redeemed. *)
Theorem rotate_unknown_jti env now rnd oldToken store :
  (∀ c, jwt_decode oldToken = Some c → store !! jti (payload c) = None) →
  rotateRefreshToken env now rnd oldToken store
  = (Throw "invalid_refresh", store)
  ∨ rotateRefreshToken env now rnd oldToken store
    = (Throw "refresh_reused_or_revoked", store).
Proof.
  intros Hnone. unfold rotateRefreshToken.
  destruct (jwt_verify _ _ _ _ _) as [c|] eqn:Hv; [|by left].
  case_bool_decide; simpl; [|by left].
  rewrite (Hnone c) by by eapply jwt_verify_decode. by right.
Qed.

(** X8. The refresh token [issueTokens] returns can be rotated on the ledger it
    leaves, at any time before the token's [exp], whatever the ledger held:
    a subject revoked earlier starts afresh with a new login. *)
Theorem issue_then_rotate env now0 rnd0 subject store now1 rnd1 :
  now1 `div` 1000 < now0 `div` 1000 + REFRESH_TOKEN_TTL env →
  ∃ tokens store',
    rotateRefreshToken env now1 rnd1
      (refreshToken (issueTokens env now0 rnd0 subject store).1)
      (issueTokens env now0 rnd0 subject store).2
    = (Return tokens, store').
Proof.
  intros Hlive.
  destruct (issueTokens_redeemable env now0 rnd0 subject store now1 Hlive)
    as (c & rec & Hv & Hp & Hl & Hval & _).
  eexists _, _. apply (rotate_Return _ _ _ _ _ c rec); [done | by rewrite Hp | | done].
  by rewrite Hp.
Qed.

(** X9. Rotation hands the right to rotate on: the refresh token a successful
    rotation returns can itself be rotated on the ledger that rotation
    leaves, until its own [exp]. *)
Theorem rotate_chain env now1 rnd1 r store tokens store1 now2 rnd2 :
  rotateRefreshToken env now1 rnd1 r store = (Return tokens, store1) →
  now2 `div` 1000 < now1 `div` 1000 + REFRESH_TOKEN_TTL env →
  ∃ tokens2 store2,
    rotateRefreshToken env now2 rnd2 (refreshToken tokens) store1
    = (Return tokens2, store2).
Proof.
  intros Hrot Hlive.
  destruct (rotate_Return_inv _ _ _ _ _ _ _ Hrot)
    as (c & rec & Hv & Ht & Hl & Hval).
  rewrite (rotate_Return _ _ _ _ _ _ _ Hv Ht Hl Hval) in Hrot.
  injection Hrot as <- <-.
  destruct (issueTokens_redeemable env now1 rnd1 (sub (payload c))
              (consumed (jti (payload c)) rec store) now2 Hlive)
    as (c2 & rec2 & Hv2 & Hp2 & Hl2 & Hval2 & _).
  eexists _, _.
  apply (rotate_Return _ _ _ _ _ c2 rec2); [done | by rewrite Hp2 | | done].
  by rewrite Hp2.
Qed.

(** X4. A token is bound to the issuer and audience it was signed for: under a
    configuration with the same secrets but another [JWT_ISSUER] or
    [JWT_AUDIENCE], the refresh token is turned away by rotation with
    [invalid_refresh] and the access token by [authenticateJwt] with
    [invalid_token]. *)
Theorem tokens_bound_to_issuer_audience env env' now0 rnd0 subject store0
    now rnd store :
  JWT_REFRESH_SECRET env' = JWT_REFRESH_SECRET env →
  JWT_ACCESS_SECRET env' = JWT_ACCESS_SECRET env →
  JWT_ISSUER env ≠ JWT_ISSUER env' ∨ JWT_AUDIENCE env ≠ JWT_AUDIENCE env' →
  rotateRefreshToken env' now rnd
    (refreshToken (issueTokens env now0 rnd0 subject store0).1) store
  = (Throw "invalid_refresh", store)
  ∧ authenticateJwt env' now
      (Some ("Bearer "
             ++ accessToken (issueTokens env now0 rnd0 subject store0).1))
    = Status401 "invalid_token".
Proof.
  intros Hr Ha Hne. split.
  - unfold rotateRefreshToken, issueTokens. simpl. rewrite Hr.
    by rewrite jwt_verify_sign_claims.
  - unfold authenticateJwt. simpl default. rewrite bearerToken_Bearer.
    unfold issueTokens. simpl.
    rewrite bool_decide_eq_false_2 by apply jwt_sign_nonempty.
    rewrite Ha. by rewrite jwt_verify_sign_claims.
Qed.

Lemma revokeFamily_fmap subject store :
  revokeFamily subject store = revoked subject <$> store.
Proof.
  apply map_eq. intros k. by rewrite revokeFamily_lookup, lookup_fmap.
Qed.

(** X11. [revokeFamily(subject)] leaves the subject without a single redeemable
    record, and every other subject with as many as it had. *)
Theorem revokeFamily_validCount subject store :
  validCount subject (revokeFamily subject store) = 0%nat
  ∧ ∀ other, other ≠ subject →
      validCount other (revokeFamily subject store) = validCount other store.
Proof.
  unfold validCount. rewrite revokeFamily_fmap. split.
  - assert (filter (λ kv, redeemable subject kv.2 = true)
              (revoked subject <$> store) = ∅) as ->;
      [|apply map_size_empty].
    apply map_empty_filter. intros k rec' Hk. simpl.
    rewrite lookup_fmap in Hk.
    destruct (store !! k) as [rec|]; [|done]. injection Hk as <-.
    unfold redeemable, revoked.
    destruct (bool_decide (RefreshRecord.sub rec = subject)) eqn:E; simpl.
    + by rewrite andb_false_r.
    + by rewrite E.
  - intros other Hne. rewrite map_filter_fmap, map_size_fmap. f_equal.
    apply map_filter_ext. intros k rec _. simpl. unfold redeemable, revoked.
    destruct (decide (RefreshRecord.sub rec = subject)) as [Hs|Hs].
    + rewrite (bool_decide_eq_true_2 _ Hs). simpl.
      rewrite (bool_decide_eq_false_2 (RefreshRecord.sub rec = other))
        by congruence.
      by rewrite andb_false_r.
    + by rewrite (bool_decide_eq_false_2 _ Hs).
Qed.

(** X12. Revocations of different subjects do not interfere: the order in which
    two subjects are revoked makes no difference to the ledger. *)
Theorem revokeFamily_comm s1 s2 store :
  revokeFamily s1 (revokeFamily s2 store)
  = revokeFamily s2 (revokeFamily s1 store).
Proof.
  apply map_eq. intros k. rewrite !revokeFamily_lookup.
  destruct (store !! k) as [rec|]; simpl; [|done]. f_equal.
  unfold revoked.
  destruct (bool_decide (RefreshRecord.sub rec = s1)) eqn:E1,
           (bool_decide (RefreshRecord.sub rec = s2)) eqn:E2;
    simpl; by rewrite ?E1, ?E2.
Qed.

Lemma run_keeps_keys env cs store k :
  is_Some (store !! k) → is_Some (run env cs store !! k).
Proof.
  revert store. induction cs as [|c cs IH]; intros store Hk; [done|].
  simpl. by apply IH, exec_keeps_keys.
Qed.

(** X13. The ledger never forgets: whatever calls are served, every key stays,
    so the store only grows (expired and consumed records included). *)
Theorem ledger_never_forgets env cs store :
  dom store ⊆ dom (run env cs store)
  ∧ (size store ≤ size (run env cs store))%nat.
Proof.
  assert (Hsub : dom store ⊆ dom (run env cs store)).
  { intros k. rewrite !elem_of_dom. apply run_keeps_keys. }
  split; [done|]. rewrite <- !size_dom. by apply subseteq_size.
Qed.

(** X14. On every ledger the module can reach, each record is stored under its
    own [jti], so the two writes of a rotation ([record.valid = false] and
    [refreshStore.set(record.jti, record)]) hit the same entry. *)
Theorem reachable_records_keyed env store k rec :
  reachable env store →
  store !! k = Some rec →
  RefreshRecord.jti rec = k
  ∧ consumed k rec store = <[k := RefreshRecord.invalidate rec]> store.
Proof.
  intros Hreach Hk. pose proof (reachable_wellKeyed _ _ Hreach _ _ Hk) as Hj.
  split; [done|]. unfold consumed. simpl. rewrite Hj.
  apply insert_insert_eq.
Qed.

(** X10. With a fresh refresh id, [issueTokens(subject)] adds one redeemable
    record to the subject's count, leaves every other subject's count alone
    and changes no record that was there. *)
Theorem issueTokens_validCount env now rnd subject store :
  store !! refreshId rnd = None →
  validCount subject (issueTokens env now rnd subject store).2
  = S (validCount subject store)
  ∧ (∀ other, other ≠ subject →
       validCount other (issueTokens env now rnd subject store).2
       = validCount other store)
  ∧ ∀ k rec, store !! k = Some rec →
       (issueTokens env now rnd subject store).2 !! k = Some rec.
Proof.
  intros Hfresh. rewrite issueTokens_store. split; [|split].
  - apply validCount_register; [done|].
    unfold redeemable. simpl. by rewrite bool_decide_eq_true_2.
  - intros other Hne. unfold validCount.
    rewrite map_filter_insert_False.
    + by rewrite delete_id.
    + simpl. unfold redeemable. simpl.
      rewrite bool_decide_eq_false_2 by congruence. done.
  - intros k rec Hk. rewrite lookup_insert_ne; [done | congruence].
Qed.


(** X15. Every refresh token the module has handed out since it started has a
    ledger record under its [jti], carrying the token's subject (refresh
    ids drawn fresh). *)
Theorem minted_tokens_have_records env cs token :
  freshRun env cs ∅ = true →
  token ∈ minted env cs ∅ →
  ∃ c rec,
    jwt_decode token = Some c
    ∧ run env cs ∅ !! jti (payload c) = Some rec
    ∧ RefreshRecord.jti rec = jti (payload c)
    ∧ RefreshRecord.sub rec = sub (payload c).
Proof.
  intros Hfresh Hin. apply (minted_agree env cs ∅ token); [|done..].
  intros k rec Hk. by rewrite lookup_empty in Hk.
Qed.

End TokenModule.

(** ** The auth routes *)

(** A string has at most as many code units as bytes. *)
Lemma jsLength_le (s : string) : (jsLength s ≤ String.length s)%nat.
Proof.
  unfold jsLength.
  assert (∀ n t, (String.length t ≤ n)%nat →
                 (length (utf16 t) ≤ String.length t)%nat) as Hn;
    [|by apply (Hn (String.length s))].
  induction n as [|n IH]; intros t Ht.
  { destruct t; simpl in *; [done | lia]. }
  destruct t as [|b0 s1]; [done|]. cbn [String.length] in Ht.
  cbn [utf16]. cbv zeta.
  repeat case_match; subst; cbn [String.length length] in *;
    repeat match goal with
    | |- context [utf16 ?u] =>
        lazymatch goal with
        | _ : (length (utf16 u) ≤ String.length u)%nat |- _ => fail
        | _ => assert (length (utf16 u) ≤ String.length u)%nat
                 by (apply IH; cbn [String.length]; lia)
        end
    end;
    cbn [String.length] in *; lia.
Qed.

Section RouteFacts.
Context `{JsonWebToken}.
Variable timespan : string → option Z.

Implicit Types (store : gmap string RefreshRecord.t) (rec : RefreshRecord.t).

Lemma zStringMin_Some n v s :
  zStringMin n v = Some s ↔ v = Some (JString s) ∧ (n ≤ jsLength s)%nat.
Proof.
  unfold zStringMin. destruct v as [[]|]; try (split; [done | by intros [? _]]).
  case_bool_decide; split.
  - by intros [= ->].
  - by intros [[= ->] _].
  - done.
  - intros [[= ->] ?]. done.
Qed.

Lemma tokenSchema_Some body appid appsecret :
  tokenSchema body = Some (appid, appsecret) ↔
  ∃ fields,
    body = Some (JObject fields)
    ∧ property "appid" fields = Some (JString appid)
    ∧ property "appsecret" fields = Some (JString appsecret)
    ∧ (3 ≤ jsLength appid)%nat ∧ (8 ≤ jsLength appsecret)%nat.
Proof.
  unfold tokenSchema. split.
  - destruct body as [[]|]; try done.
    destruct (zStringMin 3 _) as [a|] eqn:Ea; [|done].
    destruct (zStringMin 8 _) as [s|] eqn:Es; [|done].
    intros [= <- <-]. apply zStringMin_Some in Ea as [? ?].
    apply zStringMin_Some in Es as [? ?]. eauto 10.
  - intros (fields & -> & Ha & Hs & La & Ls).
    rewrite (proj2 (zStringMin_Some 3 _ appid)) by done.
    by rewrite (proj2 (zStringMin_Some 8 _ appsecret)).
Qed.

Lemma postToken_match cfg env now rnd body store :
  tokenSchema body = Some (Config.APP_ID cfg, Config.APP_SECRET cfg) →
  tokenEnv timespan cfg = Some env →
  postToken timespan cfg now rnd body store
  = (TokenReply
       (accessToken (issueTokens env now rnd (Config.APP_ID cfg) store).1)
       (refreshToken (issueTokens env now rnd (Config.APP_ID cfg) store).1)
       "Bearer" (Config.ACCESS_TOKEN_TTL cfg),
     (issueTokens env now rnd (Config.APP_ID cfg) store).2).
Proof.
  intros Hs He. unfold postToken.
  rewrite Hs, He, !bool_decide_eq_true_2 by done. cbn [negb orb].
  by destruct (issueTokens env now rnd (Config.APP_ID cfg) store).
Qed.

Lemma postToken_uncaught cfg now rnd body store :
  tokenSchema body = Some (Config.APP_ID cfg, Config.APP_SECRET cfg) →
  tokenEnv timespan cfg = None →
  postToken timespan cfg now rnd body store = (Uncaught, store).
Proof.
  intros Hs He. unfold postToken.
  by rewrite Hs, He, !bool_decide_eq_true_2 by done.
Qed.

Lemma postToken_refused cfg now rnd body store :
  tokenSchema body ≠ Some (Config.APP_ID cfg, Config.APP_SECRET cfg) →
  postToken timespan cfg now rnd body store
  = (ErrorReply 400 "invalid_input", store)
  ∨ postToken timespan cfg now rnd body store
    = (ErrorReply 401 "invalid_credentials", store).
Proof.
  intros Hne. unfold postToken.
  destruct (tokenSchema body) as [[appid appsecret]|]; [|by left].
  right. destruct (decide (appid = Config.APP_ID cfg)) as [->|Hid].
  2:{ by rewrite (bool_decide_eq_false_2 _ Hid). }
  destruct (decide (appsecret = Config.APP_SECRET cfg)) as [->|Hs]; [done|].
  rewrite (bool_decide_eq_false_2 _ Hs). simpl. by rewrite orb_true_r.
Qed.

(** X16. [POST /token], for a body that carries the configured [appid] and
    [appsecret], these being at least 3 and 8 code units long: it answers
    a pair exactly when [jwt.sign] accepts both configured TTLs, the pair is
    then that of [issueTokens] for the app id and [expiresIn] the configured
    TTL as written; when [jwt.sign] refuses a TTL the handler throws with
    the ledger untouched. For every other body the answer is 400
    [invalid_input] or 401 [invalid_credentials] and the ledger is left
    alone. *)
Theorem postToken_grants_iff cfg now rnd body store :
  let credential :=
    ∃ fields,
      body = Some (JObject fields)
      ∧ property "appid" fields = Some (JString (Config.APP_ID cfg))
      ∧ property "appsecret" fields = Some (JString (Config.APP_SECRET cfg))
      ∧ (3 ≤ jsLength (Config.APP_ID cfg))%nat
      ∧ (8 ≤ jsLength (Config.APP_SECRET cfg))%nat in
  ((∃ a r t e store',
      postToken timespan cfg now rnd body store
      = (TokenReply a r t e, store'))
   ↔ credential ∧ is_Some (tokenEnv timespan cfg))
  ∧ (∀ env,
       credential →
       tokenEnv timespan cfg = Some env →
       postToken timespan cfg now rnd body store
       = (TokenReply
            (accessToken
               (issueTokens env now rnd (Config.APP_ID cfg) store).1)
            (refreshToken
               (issueTokens env now rnd (Config.APP_ID cfg) store).1)
            "Bearer" (Config.ACCESS_TOKEN_TTL cfg),
          (issueTokens env now rnd (Config.APP_ID cfg) store).2))
  ∧ (postToken timespan cfg now rnd body store = (Uncaught, store)
     ↔ credential ∧ tokenEnv timespan cfg = None)
  ∧ (¬ credential →
     postToken timespan cfg now rnd body store
     = (ErrorReply 400 "invalid_input", store)
     ∨ postToken timespan cfg now rnd body store
       = (ErrorReply 401 "invalid_credentials", store)).
Proof.
  intros credential.
  assert (Hcred : credential
            ↔ tokenSchema body
              = Some (Config.APP_ID cfg, Config.APP_SECRET cfg)).
  { symmetry. apply tokenSchema_Some. }
  assert (Hcases :
            (tokenSchema body
             ≠ Some (Config.APP_ID cfg, Config.APP_SECRET cfg)
             ∧ (postToken timespan cfg now rnd body store
                = (ErrorReply 400 "invalid_input", store)
                ∨ postToken timespan cfg now rnd body store
                  = (ErrorReply 401 "invalid_credentials", store)))
            ∨ (credential ∧ tokenEnv timespan cfg = None
               ∧ postToken timespan cfg now rnd body store
                 = (Uncaught, store))
            ∨ (credential ∧ ∃ env a r t e store',
                 tokenEnv timespan cfg = Some env
                 ∧ postToken timespan cfg now rnd body store
                   = (TokenReply a r t e, store'))).
  { destruct (decide (tokenSchema body
                      = Some (Config.APP_ID cfg, Config.APP_SECRET cfg)))
      as [Hs|Hs].
    - right. destruct (tokenEnv timespan cfg) as [env|] eqn:He.
      + right. split; [by apply Hcred|]. exists env.
        rewrite (postToken_match _ _ _ _ _ _ Hs He). eauto 10.
      + left. split; [by apply Hcred|]. split; [done|].
        by apply postToken_uncaught.
    - left. split; [done|]. by apply postToken_refused. }
  split; [|split; [|split]].
  - split.
    + intros (a & r & t & e & store' & Hp).
      destruct Hcases as [[_ [E|E]]|[(_ & _ & E)|(Hc & env & _ & _ & _ & _ & _
                                                    & He & _)]];
        try (rewrite E in Hp; discriminate Hp).
      split; [done|]. rewrite He. eauto.
    + intros [Hc [env He]]. apply Hcred in Hc.
      rewrite (postToken_match _ _ _ _ _ _ Hc He). eauto 10.
  - intros env Hc He. apply Hcred in Hc. by apply postToken_match.
  - split.
    + intros Hp.
      destruct Hcases as [[_ [E|E]]|[(Hc & He & _)|(_ & env & a & r & t & e
                                                     & store' & _ & E)]];
        try (rewrite E in Hp; discriminate Hp).
      done.
    + intros [Hc He]. apply Hcred in Hc. by apply postToken_uncaught.
  - intros Hnot. apply postToken_refused. intros Hs. by apply Hnot, Hcred.
Qed.

(** X17. A configured [APP_ID] shorter than 3 code units or [APP_SECRET] shorter
    than 8 locks every client out: the schema refuses the right credential
    before it is compared, so no body at all obtains a pair. *)
Theorem postToken_lockout cfg now rnd body store :
  (jsLength (Config.APP_ID cfg) < 3)%nat
  ∨ (jsLength (Config.APP_SECRET cfg) < 8)%nat →
  postToken timespan cfg now rnd body store
  = (ErrorReply 400 "invalid_input", store)
  ∨ postToken timespan cfg now rnd body store
    = (ErrorReply 401 "invalid_credentials", store).
Proof.
  intros Hshort. apply postToken_refused. intros Hs.
  apply tokenSchema_Some in Hs as (fields & _ & _ & _ & La & Ls). lia.
Qed.

(** X18. [POST /refresh] answers a rotated pair, 400 [invalid_input] or 401
    [invalid_refresh] and nothing else: a replayed or revoked token gets the
    same 401 as a forged one. Whenever the answer is an error the ledger is
    what it was. *)
Theorem postRefresh_replies env now rnd body store :
  (∃ token tokens store',
     refreshSchema body = Some token
     ∧ rotateRefreshToken env now rnd token store = (Return tokens, store')
     ∧ postRefresh env now rnd body store
       = (RefreshReply (accessToken tokens) (refreshToken tokens), store'))
  ∨ postRefresh env now rnd body store
    = (ErrorReply 400 "invalid_input", store)
  ∨ postRefresh env now rnd body store
    = (ErrorReply 401 "invalid_refresh", store).
Proof.
  unfold postRefresh.
  destruct (refreshSchema body) as [token|] eqn:Hs; [|by right; left].
  destruct (rotateRefreshToken env now rnd token store) as [[tokens|m] s']
    eqn:E.
  - left. by exists token, tokens, s'.
  - right; right. by rewrite (rotate_Throw_store _ _ _ _ _ _ _ E).
Qed.

(** X19. Login, refresh, replay, through the routes, under a configuration
    whose two TTLs [jwt.sign] accepts and whose [APP_ID] and [APP_SECRET]
    are at least 3 and 8 code units long. With the configured credential
    in the body, [POST /token] answers the pair of [issueTokens] for the app
    id; posting its refresh token (at least 10 code units) to
    [POST /refresh] before it expires answers a new pair; posting the same
    refresh token again, at any later time, answers 401 [invalid_refresh]
    and changes nothing (the second pair having drawn another refresh
    id). *)
Theorem login_refresh_replay cfg env now0 rnd0 store now1 rnd1 now2 rnd2 :
  tokenEnv timespan cfg = Some env →
  (3 ≤ jsLength (Config.APP_ID cfg))%nat →
  (8 ≤ jsLength (Config.APP_SECRET cfg))%nat →
  now1 `div` 1000 < now0 `div` 1000 + REFRESH_TOKEN_TTL env →
  refreshId rnd1 ≠ refreshId rnd0 →
  let login := issueTokens env now0 rnd0 (Config.APP_ID cfg) store in
  (10 ≤ jsLength (refreshToken login.1))%nat →
  postToken timespan cfg now0 rnd0
            (tokenBody (Config.APP_ID cfg) (Config.APP_SECRET cfg)) store
  = (TokenReply (accessToken login.1) (refreshToken login.1) "Bearer"
                (Config.ACCESS_TOKEN_TTL cfg), login.2)
  ∧ ∃ tokens store2,
      postRefresh env now1 rnd1 (refreshBody (refreshToken login.1)) login.2
      = (RefreshReply (accessToken tokens) (refreshToken tokens), store2)
      ∧ postRefresh env now2 rnd2 (refreshBody (refreshToken login.1)) store2
        = (ErrorReply 401 "invalid_refresh", store2).
Proof.
  intros Henv La Ls Hlive Hne login Hlen.
  assert (Hschema : refreshSchema (refreshBody (refreshToken login.1))
                    = Some (refreshToken login.1)).
  { unfold refreshSchema, refreshBody. simpl property.
    by apply zStringMin_Some. }
  split.
  - apply postToken_match; [|done]. apply tokenSchema_Some.
    eexists. split; [reflexivity|]. by simpl.
  - destruct (issueTokens_redeemable env now0 rnd0 (Config.APP_ID cfg) store
                now1 Hlive) as (c & rec & Hv & Hp & Hl & Hval & _).
    fold login in Hv, Hl.
    assert (Hj : jti (payload c) = refreshId rnd0) by by rewrite Hp.
    assert (Ht : type (payload c) = refresh) by by rewrite Hp.
    rewrite <- Hj in Hl.
    pose proof (rotate_Return env now1 rnd1 _ _ c rec Hv Ht Hl Hval) as Hrot.
    eexists _, _. split.
    + unfold postRefresh. rewrite Hschema, Hrot. reflexivity.
    + unfold postRefresh. rewrite Hschema.
      set (store2 := (issueTokens env now1 rnd1 (sub (payload c))
                        (consumed (jti (payload c)) rec login.2)).2).
      assert (Hold : store2 !! jti (payload c)
                     = Some (RefreshRecord.invalidate rec)).
      { unfold store2. rewrite issueTokens_store.
        rewrite lookup_insert_ne by congruence.
        rewrite consumed_lookup. by rewrite bool_decide_eq_true_2 by auto. }
      destruct (rotateRefreshToken env now2 rnd2 (refreshToken login.1)
                  store2) as [[tokens|m] s'] eqn:E.
      * destruct (rotate_Return_inv _ _ _ _ _ _ _ E)
          as (c2 & rec2 & Hv2 & _ & Hl2 & Hval2).
        apply jwt_verify_decode in Hv, Hv2.
        assert (c2 = c) as -> by congruence.
        rewrite Hold in Hl2. injection Hl2 as <-. done.
      * by rewrite (rotate_Throw_store _ _ _ _ _ _ _ E).
Qed.

End RouteFacts.

(** ** Configuration *)

Section ConfigFacts.
Variable parseInt : string → JsNumber.

Lemma firstUnset_None env keys :
  Config.firstUnset env keys = None ↔
  Forall (λ key, Config.unset env key = false) keys.
Proof.
  induction keys as [|key keys IH]; simpl.
  - split; [by constructor | done].
  - destruct (Config.unset env key) eqn:E.
    + split; [done|]. intros Hall. inversion Hall; congruence.
    + rewrite IH. split; [by constructor|]. by inversion 1.
Qed.

Lemma firstUnset_app env before key after :
  Forall (λ k, Config.unset env k = false) before →
  Config.unset env key = true →
  Config.firstUnset env (before ++ key :: after)%list = Some key.
Proof.
  intros Hall Hkey. induction Hall as [|k before Hk _ IH]; simpl.
  - by rewrite Hkey.
  - by rewrite Hk.
Qed.

Lemma unset_false env key :
  Config.unset env key = false ↔
  ∃ v, env !! key = Some v ∧ v ≠ "".
Proof.
  unfold Config.unset. destruct (env !! key) as [v|].
  - rewrite bool_decide_eq_false. split; [eauto|]. by intros (? & [= <-] & ?).
  - split; [done|]. by intros (? & ? & _).
Qed.

(** X20. With the cache empty, [getEnv] throws at the first required variable, in
    the order of its list, that is absent or empty, naming it in the
    message; the cache stays empty, so a later call reads the environment
    again. *)
Theorem getEnv_missing env before key after :
  Config.required = (before ++ key :: after)%list →
  Forall (λ k, Config.unset env k = false) before →
  Config.unset env key = true →
  Config.getEnv parseInt None env
  = (Throw ("Missing required env var: " ++ key), None).
Proof.
  intros Hreq Hbefore Hkey. unfold Config.getEnv. rewrite Hreq.
  by rewrite (firstUnset_app _ _ _ _ Hbefore Hkey).
Qed.

(** X21. With the cache empty, [getEnv] returns exactly when the eleven required
    variables are all present and non-empty; nothing else in the
    environment can make it throw (not an absent [PORT], [NODE_ENV],
    [CORS_ORIGIN] or [CONTRACT_ADDRESS], which take 4000, ['development'],
    ['*'] and [undefined]). *)
Theorem getEnv_returns_iff env :
  (∃ e, Config.getEnv parseInt None env = (Return e, Some e))
  ↔ Forall (λ key, ∃ v, env !! key = Some v ∧ v ≠ "") Config.required.
Proof.
  unfold Config.getEnv.
  destruct (Config.firstUnset env Config.required) as [key|] eqn:E.
  - split; [by intros [e ?]|]. intros Hall.
    assert (Config.firstUnset env Config.required = None) as Hnone.
    { apply firstUnset_None. eapply Forall_impl; [exact Hall|].
      intros k Hk. by apply unset_false. }
    congruence.
  - split; [|eauto]. intros _. apply firstUnset_None in E.
    eapply Forall_impl; [exact E|]. intros k Hk. by apply unset_false.
Qed.

(** X22. The configuration is read once: after a call that returned, every later
    call returns the same record without looking at the environment, even
    one that has since lost its variables. *)
Theorem getEnv_cached env e cache env' :
  Config.getEnv parseInt None env = (Return e, cache) →
  Config.getEnv parseInt cache env' = (Return e, cache).
Proof.
  unfold Config.getEnv at 1.
  destruct (Config.firstUnset env Config.required); [done|].
  by intros [= <- <-].
Qed.

(** X23. A configuration [getEnv] returns carries the secrets, issuer, audience,
    TTLs and client credential of the environment as they are, none of them
    empty. *)
Theorem getEnv_fields env e cache :
  Config.getEnv parseInt None env = (Return e, cache) →
  env !! "JWT_ACCESS_SECRET" = Some (Config.JWT_ACCESS_SECRET e)
  ∧ env !! "JWT_REFRESH_SECRET" = Some (Config.JWT_REFRESH_SECRET e)
  ∧ env !! "JWT_ISSUER" = Some (Config.JWT_ISSUER e)
  ∧ env !! "JWT_AUDIENCE" = Some (Config.JWT_AUDIENCE e)
  ∧ env !! "ACCESS_TOKEN_TTL" = Some (Config.ACCESS_TOKEN_TTL e)
  ∧ env !! "REFRESH_TOKEN_TTL" = Some (Config.REFRESH_TOKEN_TTL e)
  ∧ env !! "APP_ID" = Some (Config.APP_ID e)
  ∧ env !! "APP_SECRET" = Some (Config.APP_SECRET e)
  ∧ Forall (λ v, v ≠ "")
      [Config.JWT_ACCESS_SECRET e; Config.JWT_REFRESH_SECRET e;
       Config.JWT_ISSUER e; Config.JWT_AUDIENCE e;
       Config.ACCESS_TOKEN_TTL e; Config.REFRESH_TOKEN_TTL e;
       Config.APP_ID e; Config.APP_SECRET e].
Proof.
  unfold Config.getEnv.
  destruct (Config.firstUnset env Config.required) eqn:E; [done|].
  intros [= <- _]. apply firstUnset_None in E.
  unfold Config.required in E.
  repeat match goal with
  | Hall : Forall _ (_ :: _) |- _ =>
      apply Forall_cons in Hall as [[? [? ?]]%unset_false Hall]
  end.
  simpl. unfold Config.var.
  repeat match goal with Hk : _ !! _ = Some _ |- _ => rewrite Hk; clear Hk end.
  simpl. repeat split; try done. repeat constructor; done.
Qed.

End ConfigFacts.

(** ** Explorer links *)

Section ExplorerFacts.
Variable hostname : string → option string.

Lemma explorerOfChain_known chainId base :
  explorerOfChain chainId = Some base →
  base ∈ ["https://etherscan.io"; "https://goerli.etherscan.io";
          "https://sepolia.etherscan.io"; "https://polygonscan.com";
          "https://mumbai.polygonscan.com"; "https://basescan.org";
          "https://optimistic.etherscan.io"; "https://arbiscan.io"].
Proof.
  unfold explorerOfChain.
  repeat (case_bool_decide;
          [intros [= <-]; apply list_elem_of_In; simpl; tauto|]).
  done.
Qed.

Lemma explorerOfRpc_known rpcUrl base :
  explorerOfRpc hostname rpcUrl = Some base →
  base ∈ ["https://polygonscan.com"; "https://etherscan.io"].
Proof.
  unfold explorerOfRpc. destruct rpcUrl as [url|]; [|done].
  case_bool_decide; [done|]. destruct (hostname url) as [host|]; [|done].
  destruct (includes "polygon" host);
    [intros [= <-]; apply list_elem_of_In; simpl; tauto|].
  destruct (includes "eth" host);
    [intros [= <-]; apply list_elem_of_In; simpl; tauto|].
  done.
Qed.

Lemma getExplorerBase_known chainId rpcUrl base :
  getExplorerBase hostname chainId rpcUrl = Some base →
  base ∈ ["https://etherscan.io"; "https://goerli.etherscan.io";
          "https://sepolia.etherscan.io"; "https://polygonscan.com";
          "https://mumbai.polygonscan.com"; "https://basescan.org";
          "https://optimistic.etherscan.io"; "https://arbiscan.io"].
Proof.
  unfold getExplorerBase. destruct chainId as [z|].
  - destruct (explorerOfChain z) as [b|] eqn:E.
    + intros [= <-]. by apply explorerOfChain_known in E.
    + intros Hin%explorerOfRpc_known%list_elem_of_In.
      apply list_elem_of_In. simpl in *. tauto.
  - intros Hin%explorerOfRpc_known%list_elem_of_In.
    apply list_elem_of_In. simpl in *. tauto.
Qed.

(** X24. A transaction link is [tx:<hash>] when no explorer is known, and
    otherwise [<base>/tx/<hash>] for one of eight fixed explorer addresses:
    nothing of the RPC URL ever appears in it. *)
Theorem txExplorerUrl_shape txHash chainId rpcUrl :
  (getExplorerBase hostname chainId rpcUrl = None
   ∧ txExplorerUrl hostname txHash chainId rpcUrl = "tx:" ++ txHash)
  ∨ ∃ base,
      base ∈ ["https://etherscan.io"; "https://goerli.etherscan.io";
              "https://sepolia.etherscan.io"; "https://polygonscan.com";
              "https://mumbai.polygonscan.com"; "https://basescan.org";
              "https://optimistic.etherscan.io"; "https://arbiscan.io"]
      ∧ getExplorerBase hostname chainId rpcUrl = Some base
      ∧ txExplorerUrl hostname txHash chainId rpcUrl
        = base ++ "/tx/" ++ txHash.
Proof.
  unfold txExplorerUrl.
  destruct (getExplorerBase hostname chainId rpcUrl) as [base|] eqn:E;
    [|by left].
  right. exists base. pose proof (getExplorerBase_known _ _ _ E) as Hin.
  split; [done|]. split; [done|].
  rewrite bool_decide_eq_false_2; [done|]. intros ->.
  apply list_elem_of_In in Hin. simpl in Hin.
  repeat destruct Hin as [Hin|Hin]; done.
Qed.

(** X25. Links of different transactions differ: for one chain and RPC URL,
    [txExplorerUrl] is injective in the hash. *)
Theorem txExplorerUrl_injective h1 h2 chainId rpcUrl :
  txExplorerUrl hostname h1 chainId rpcUrl
  = txExplorerUrl hostname h2 chainId rpcUrl →
  h1 = h2.
Proof.
  unfold txExplorerUrl.
  destruct (getExplorerBase hostname chainId rpcUrl) as [base|].
  - case_bool_decide.
    + by intros ?%(inj (String.app "tx:")).
    + by intros ?%(inj (String.app base))%(inj (String.app "/tx/")).
  - by intros ?%(inj (String.app "tx:")).
Qed.

End ExplorerFacts.

(** ** The metadata commitment *)

(** The order of the sort: total, transitive and antisymmetric. *)

Lemma unitsCompare_refl (u : list N) : unitsCompare u u = Eq.
Proof. induction u as [|x u IH]; simpl; [done|]. by rewrite N.compare_refl. Qed.

Lemma unitsCompare_Eq (u v : list N) : unitsCompare u v = Eq → u = v.
Proof.
  revert v. induction u as [|x u IH]; intros [|y v]; simpl; try done.
  destruct (N.compare_spec x y); try done. intros E. subst. f_equal. auto.
Qed.

Lemma unitsCompare_opp (u v : list N) :
  unitsCompare v u = CompOpp (unitsCompare u v).
Proof.
  revert v. induction u as [|x u IH]; intros [|y v]; simpl; try done.
  rewrite (N.compare_antisym x y). destruct (x ?= y)%N; simpl; auto.
Qed.

Lemma unitsCompare_Lt_trans (u v w : list N) :
  unitsCompare u v = Lt → unitsCompare v w = Lt → unitsCompare u w = Lt.
Proof.
  revert v w. induction u as [|x u IH]; intros [|y v] [|z w]; simpl;
    try done.
  destruct (N.compare_spec x y), (N.compare_spec y z); try done; subst;
    intros Huv Hvw.
  - rewrite N.compare_refl. eauto.
  - by apply N.compare_lt_iff in H0 as ->.
  - by apply N.compare_lt_iff in H as ->.
  - assert (x < z)%N as Hxz by lia. by apply N.compare_lt_iff in Hxz as ->.
Qed.

#[global] Instance keyBefore_total : Total keyBefore.
Proof.
  intros a b. unfold keyBefore, keyLeb.
  rewrite (unitsCompare_opp (utf16 a) (utf16 b)).
  destruct (unitsCompare (utf16 a) (utf16 b)); simpl; auto.
  destruct (total String.le a b) as [Hle|Hle]; [left|right];
    by apply Is_true_true.
Qed.

#[global] Instance keyBefore_trans : Transitive keyBefore.
Proof.
  intros a b c. unfold keyBefore, keyLeb.
  destruct (unitsCompare (utf16 a) (utf16 b)) eqn:Eab; [| |done];
    (destruct (unitsCompare (utf16 b) (utf16 c)) eqn:Ebc; [| |done]);
    intros Hab Hbc.
  - apply unitsCompare_Eq in Eab, Ebc. rewrite Eab, Ebc, unitsCompare_refl.
    apply Is_true_true. apply Is_true_true in Hab, Hbc.
    exact (transitivity (R := String.le) Hab Hbc).
  - apply unitsCompare_Eq in Eab. by rewrite Eab, Ebc.
  - apply unitsCompare_Eq in Ebc. by rewrite <- Ebc, Eab.
  - by rewrite (unitsCompare_Lt_trans _ _ _ Eab Ebc).
Qed.

#[global] Instance keyBefore_antisym : AntiSymm (=) keyBefore.
Proof.
  intros a b. unfold keyBefore, keyLeb.
  rewrite (unitsCompare_opp (utf16 a) (utf16 b)).
  destruct (unitsCompare (utf16 a) (utf16 b)); simpl; try done.
  intros Hab Hba. apply Is_true_true in Hab, Hba.
  exact (anti_symm String.le a b Hab Hba).
Qed.

(** Outside the basic plane the code units and the bytes disagree: the
    surrogates of U+1F600 come before U+FF5E, its bytes after. *)
Lemma sortedKeys_code_units :
  sortedKeys [("～", JNull); ("😀", JNull)] = ["😀"; "～"]
  ∧ String.leb "～" "😀" = true.
Proof. split; vm_compute; reflexivity. Qed.

Section MetadataRootFacts.
Variable JSON_stringify : Json → string.
Variable sha256 : string → string.

Lemma string_app_assoc (a b c : string) : (a ++ b) ++ c = a ++ b ++ c.
Proof.
  induction a as [|x a IH]; [done|].
  change (String x ((a ++ b) ++ c) = String x (a ++ b ++ c)).
  by rewrite IH.
Qed.

Lemma property_list_to_map key (metadata : list (string * Json)) :
  property key metadata = (list_to_map metadata : gmap string Json) !! key.
Proof.
  induction metadata as [|[k v] rest IH]; simpl; [done|].
  case_bool_decide as Hk.
  - subst. by rewrite lookup_insert_eq.
  - by rewrite lookup_insert_ne.
Qed.

Lemma sorted_keys_fixed (keys : list string) :
  Sorted keyBefore keys → merge_sort keyBefore keys = keys.
Proof.
  intros Hsorted. apply (Sorted_unique keyBefore); [|done|].
  - apply (Sorted_merge_sort keyBefore).
  - apply merge_sort_Permutation.
Qed.

Lemma sortedKeys_perm (m1 m2 : list (string * Json)) :
  m1 ≡ₚ m2 → sortedKeys m1 = sortedKeys m2.
Proof.
  intros Hperm. unfold sortedKeys.
  apply (Sorted_unique keyBefore); try apply (Sorted_merge_sort keyBefore).
  rewrite !merge_sort_Permutation. by rewrite Hperm.
Qed.

(** X26. The commitment does not depend on the order in which the keys of the
    metadata object were written: two objects with the same entries in
    another order have the same root. *)
Theorem computeMetadataRoot_order (m1 m2 : list (string * Json)) :
  NoDup (m1.*1) →
  m1 ≡ₚ m2 →
  computeMetadataRoot JSON_stringify sha256 m1
  = computeMetadataRoot JSON_stringify sha256 m2.
Proof.
  intros Hnd Hperm. unfold computeMetadataRoot, concatenated.
  rewrite (sortedKeys_perm _ _ Hperm). do 2 f_equal.
  apply list_fmap_ext. intros _ key _. unfold metadataEntry.
  by rewrite !property_list_to_map, (list_to_map_proper _ _ Hnd Hperm).
Qed.

(** X27. The separators are not escaped, so the commitment does not tell how
    many entries there were: the one-entry object [{a: x + "|" + b + ":" + y}]
    has the root of the two-entry object [{a: x, b: y}], for [a] sorted
    before [b] by the order of [sort], that of the UTF-16 code units. *)
Theorem computeMetadataRoot_separator_collision (a b x y : string) :
  keyBefore a b →
  a ≠ b →
  computeMetadataRoot JSON_stringify sha256
    [(a, JString x); (b, JString y)]
  = computeMetadataRoot JSON_stringify sha256
      [(a, JString (x ++ "|" ++ b ++ ":" ++ y))].
Proof.
  intros Hab Hne. unfold computeMetadataRoot, concatenated, sortedKeys.
  f_equal. cbn [fmap list_fmap fst].
  rewrite (sorted_keys_fixed [a; b]) by (repeat constructor; done).
  rewrite (sorted_keys_fixed [a]) by (repeat constructor).
  unfold metadataEntry. simpl.
  rewrite !bool_decide_eq_true_2 by done.
  rewrite (bool_decide_eq_false_2 (a = b)) by done.
  rewrite (bool_decide_eq_true_2 (b = b)) by done. simpl.
  by rewrite !string_app_assoc.
Qed.

Lemma property_fmap (f : Json → Json) key (metadata : list (string * Json)) :
  property key (prod_map id f <$> metadata) = f <$> property key metadata.
Proof.
  induction metadata as [|[k v] rest IH]; simpl; [done|].
  by case_bool_decide.
Qed.

(** X28. The commitment does not tell a value from the text it prints as:
    replacing every value by the string [stringValue] gives for it (the
    number [1] by ["1"], [null] by ["null"], an array by its JSON text)
    leaves the root unchanged. *)
Theorem computeMetadataRoot_stringified (metadata : list (string * Json)) :
  computeMetadataRoot JSON_stringify sha256
    (prod_map id (λ v, JString (stringValue JSON_stringify v)) <$> metadata)
  = computeMetadataRoot JSON_stringify sha256 metadata.
Proof.
  unfold computeMetadataRoot, concatenated, sortedKeys. do 2 f_equal.
  assert ((prod_map id (λ v, JString (stringValue JSON_stringify v))
             <$> metadata).*1 = metadata.*1) as ->.
  { rewrite <- list_fmap_compose. by apply list_fmap_ext; intros ? [] ?. }
  apply list_fmap_ext. intros _ key _. unfold metadataEntry.
  rewrite property_fmap. by destruct (property key metadata).
Qed.

End MetadataRootFacts.

(** ** The further properties, on the session *)

(** A lower-case scheme is no bearer token. *)
Lemma authenticate_missing_token_witness :
  authenticateJwt demoEnv demoClock (Some "bearer abc")
  = Status401 "missing_token".
Proof.
  apply authenticate_missing_token. right. exists "bearer abc".
  split; [reflexivity|]. left. reflexivity.
Defined.


(** Seven days after the login its refresh token has expired. *)
Lemma rotate_expired_refresh_witness :
  rotateRefreshToken demoEnv (demoClock + 604800000) draws2
    (refreshToken (issueTokens demoEnv demoClock draws1 "app-1" ∅).1)
    demoLogin.2
  = (Throw "invalid_refresh", demoLogin.2).
Proof.
  apply (rotate_expired_refresh demoEnv demoClock draws1 "app-1" ∅).
  vm_compute. discriminate.
Defined.

(** The login's refresh token on an empty ledger. *)
Lemma rotate_unknown_jti_witness :
  rotateRefreshToken demoEnv demoClock draws2 (refreshToken demoLogin.1) ∅
  = (Throw "invalid_refresh", ∅)
  ∨ rotateRefreshToken demoEnv demoClock draws2 (refreshToken demoLogin.1) ∅
    = (Throw "refresh_reused_or_revoked", ∅).
Proof.
  apply rotate_unknown_jti. intros c _. apply lookup_empty.
Defined.

(** The login's refresh token, five seconds on. *)
Lemma issue_then_rotate_witness :
  ∃ tokens store',
    rotateRefreshToken demoEnv (demoClock + 5000) draws2
      (refreshToken (issueTokens demoEnv demoClock draws1 "app-1" ∅).1)
      (issueTokens demoEnv demoClock draws1 "app-1" ∅).2
    = (Return tokens, store').
Proof.
  apply (issue_then_rotate demoEnv demoClock draws1 "app-1" ∅
           (demoClock + 5000) draws2).
  vm_compute. reflexivity.
Defined.

(** The refresh token of the rotation, ten seconds after the login. *)
Lemma rotate_chain_witness :
  ∃ tokens2 store2,
    rotateRefreshToken demoEnv (demoClock + 10000) draws3
      (refreshToken demoRotated.1) demoRotated.2
    = (Return tokens2, store2).
Proof.
  assert (Hrot :
            rotateRefreshToken demoEnv (demoClock + 5000) draws2
              (refreshToken demoLogin.1) demoLogin.2
            = (Return demoRotated.1, demoRotated.2)).
  { vm_compute; reflexivity. }
  apply (rotate_chain demoEnv (demoClock + 5000) draws2
           (refreshToken demoLogin.1) demoLogin.2 demoRotated.1
           demoRotated.2 (demoClock + 10000) draws3 Hrot).
  vm_compute. reflexivity.
Defined.

(** The login's tokens under [otherAudienceEnv]. *)
Lemma tokens_bound_to_issuer_audience_witness :
  rotateRefreshToken otherAudienceEnv demoClock draws2
    (refreshToken (issueTokens demoEnv demoClock draws1 "app-1" ∅).1)
    demoLogin.2
  = (Throw "invalid_refresh", demoLogin.2)
  ∧ authenticateJwt otherAudienceEnv demoClock
      (Some ("Bearer "
             ++ accessToken
                  (issueTokens demoEnv demoClock draws1 "app-1" ∅).1))
    = Status401 "invalid_token".
Proof.
  apply (tokens_bound_to_issuer_audience demoEnv otherAudienceEnv demoClock
           draws1 "app-1" ∅ demoClock draws2 demoLogin.2).
  - reflexivity.
  - reflexivity.
  - right. discriminate.
Defined.

(** Revoking ["app-1"] on the ledger with two subjects. *)
Lemma revokeFamily_validCount_witness :
  validCount "app-1" (revokeFamily "app-1" twoSubjects) = 0%nat
  ∧ validCount "app-2" (revokeFamily "app-1" twoSubjects)
    = validCount "app-2" twoSubjects.
Proof.
  split.
  - exact (proj1 (revokeFamily_validCount "app-1" twoSubjects)).
  - apply (proj2 (revokeFamily_validCount "app-1" twoSubjects)).
    discriminate.
Defined.

(** The consumed record of the session sits under ["r1"]. *)
Lemma reachable_records_keyed_witness :
  RefreshRecord.jti (RefreshRecord.invalidate demoRecord) = "r1"
  ∧ consumed "r1" (RefreshRecord.invalidate demoRecord) demoRotated.2
    = <["r1" := RefreshRecord.invalidate
                  (RefreshRecord.invalidate demoRecord)]> demoRotated.2.
Proof.
  apply (reachable_records_keyed demoEnv).
  - exists [CallIssue demoClock draws1 "app-1";
            CallRotate (demoClock + 5000) draws2 (refreshToken demoLogin.1)].
    split; vm_compute; reflexivity.
  - vm_compute; reflexivity.
Defined.

(** The login's refresh token after login and rotation. *)
Lemma minted_tokens_have_records_witness :
  ∃ c rec,
    jwt_decode
      (refreshToken (issueTokens demoEnv demoClock draws1 "app-1" ∅).1)
    = Some c
    ∧ run demoEnv
          [CallIssue demoClock draws1 "app-1";
           CallRotate (demoClock + 5000) draws2 (refreshToken demoLogin.1)]
          ∅ !! jti (payload c) = Some rec
    ∧ RefreshRecord.jti rec = jti (payload c)
    ∧ RefreshRecord.sub rec = sub (payload c).
Proof.
  apply minted_tokens_have_records.
  - vm_compute; reflexivity.
  - cbn [minted]. apply elem_of_app. left. cbn [mintedBy].
    apply list_elem_of_singleton. reflexivity.
Defined.

(** The login on the empty ledger. *)
Lemma issueTokens_validCount_witness :
  validCount "app-1" (issueTokens demoEnv demoClock draws1 "app-1" ∅).2
  = S (validCount "app-1" ∅).
Proof.
  refine (proj1 (issueTokens_validCount demoEnv demoClock draws1 "app-1" ∅
                   _)).
  reflexivity.
Defined.

(** With a refresh TTL that is no timespan the right credential gets no
    answer, and no record. *)
Lemma postToken_grants_iff_witness :
  postToken demoTimespan badTtlConfig demoClock draws1
            (tokenBody "app-1" "app-1-secret") ∅
  = (Uncaught, ∅).
Proof.
  apply (proj1 (proj2 (proj2 (postToken_grants_iff demoTimespan badTtlConfig
                                demoClock draws1
                                (tokenBody "app-1" "app-1-secret") ∅)))).
  split.
  - eexists. split; [reflexivity|]. split; [reflexivity|].
    split; [reflexivity|]. split; vm_compute; lia.
  - reflexivity.
Defined.

(** The right credential of [shortSecretConfig] is refused. *)
Lemma postToken_lockout_witness :
  postToken demoTimespan shortSecretConfig demoClock draws1
            (tokenBody "app-1" "short") ∅
  = (ErrorReply 400 "invalid_input", ∅)
  ∨ postToken demoTimespan shortSecretConfig demoClock draws1
              (tokenBody "app-1" "short") ∅
    = (ErrorReply 401 "invalid_credentials", ∅).
Proof.
  apply postToken_lockout. right. vm_compute. lia.
Defined.

(** The session through the routes. *)
Lemma login_refresh_replay_witness :
  postToken demoTimespan demoConfig demoClock draws1
            (tokenBody (Config.APP_ID demoConfig)
                       (Config.APP_SECRET demoConfig)) ∅
  = (TokenReply
       (accessToken
          (issueTokens demoEnv demoClock draws1 (Config.APP_ID demoConfig)
             ∅).1)
       (refreshToken
          (issueTokens demoEnv demoClock draws1 (Config.APP_ID demoConfig)
             ∅).1)
       "Bearer" (Config.ACCESS_TOKEN_TTL demoConfig),
     (issueTokens demoEnv demoClock draws1 (Config.APP_ID demoConfig) ∅).2)
  ∧ ∃ tokens store2,
      postRefresh demoEnv (demoClock + 5000) draws2
        (refreshBody
           (refreshToken
              (issueTokens demoEnv demoClock draws1
                 (Config.APP_ID demoConfig) ∅).1))
        (issueTokens demoEnv demoClock draws1 (Config.APP_ID demoConfig) ∅).2
      = (RefreshReply (accessToken tokens) (refreshToken tokens), store2)
      ∧ postRefresh demoEnv (demoClock + 9000) draws3
          (refreshBody
             (refreshToken
                (issueTokens demoEnv demoClock draws1
                   (Config.APP_ID demoConfig) ∅).1))
          store2
        = (ErrorReply 401 "invalid_refresh", store2).
Proof.
  assert (Henv : tokenEnv demoTimespan demoConfig = Some demoEnv)
    by reflexivity.
  assert (H3 : (3 ≤ jsLength (Config.APP_ID demoConfig))%nat)
    by (vm_compute; lia).
  assert (H8 : (8 ≤ jsLength (Config.APP_SECRET demoConfig))%nat)
    by (vm_compute; lia).
  assert (Hlive : (demoClock + 5000) `div` 1000
                  < demoClock `div` 1000 + REFRESH_TOKEN_TTL demoEnv).
  { vm_compute. reflexivity. }
  assert (Hne : refreshId draws2 ≠ refreshId draws1) by discriminate.
  assert (Hlen : (10 ≤ jsLength
                         (refreshToken
                            (issueTokens demoEnv demoClock draws1
                               (Config.APP_ID demoConfig) ∅).1))%nat).
  { apply Nat.leb_le. vm_compute. reflexivity. }
  exact (login_refresh_replay demoTimespan demoConfig demoEnv demoClock
           draws1 ∅ (demoClock + 5000) draws2 (demoClock + 9000) draws3
           Henv H3 H8 Hlive Hne Hlen).
Defined.

(** Without [JWT_ISSUER] in the environment. *)
Lemma getEnv_missing_witness :
  Config.getEnv demoParseInt None (delete "JWT_ISSUER" demoProcessEnv)
  = (Throw "Missing required env var: JWT_ISSUER", None).
Proof.
  apply (getEnv_missing demoParseInt (delete "JWT_ISSUER" demoProcessEnv)
           ["JWT_ACCESS_SECRET"; "JWT_REFRESH_SECRET"] "JWT_ISSUER"
           ["JWT_AUDIENCE"; "ACCESS_TOKEN_TTL"; "REFRESH_TOKEN_TTL";
            "APP_ID"; "APP_SECRET"; "RPC_URL"; "CHAIN_ID"; "PRIVATE_KEY"]).
  - reflexivity.
  - repeat constructor.
  - reflexivity.
Defined.

(** The configuration survives an emptied environment. *)
Lemma getEnv_cached_witness :
  Config.getEnv demoParseInt (Some demoConfig) ∅
  = (Return demoConfig, Some demoConfig).
Proof.
  apply (getEnv_cached demoParseInt demoProcessEnv). vm_compute; reflexivity.
Defined.

(** The secrets of [demoConfig] are those of [demoProcessEnv]. *)
Lemma getEnv_fields_witness :
  demoProcessEnv !! "JWT_ACCESS_SECRET" = Some "access-secret"
  ∧ demoProcessEnv !! "JWT_REFRESH_SECRET" = Some "refresh-secret".
Proof.
  assert (Hget : Config.getEnv demoParseInt None demoProcessEnv
                 = (Return demoConfig, Some demoConfig)).
  { vm_compute; reflexivity. }
  destruct (getEnv_fields demoParseInt demoProcessEnv demoConfig
              (Some demoConfig) Hget) as (Ha & Hr & _).
  exact (conj Ha Hr).
Defined.

(** Two links on Polygon. *)
Lemma txExplorerUrl_injective_witness : "0xabc" = "0xabc".
Proof.
  apply (txExplorerUrl_injective demoHostname "0xabc" "0xabc" (Integer 137)
           None).
  reflexivity.
Defined.

(** The same two entries, written in either order. *)
Lemma computeMetadataRoot_order_witness :
  computeMetadataRoot demoStringify demoDigest
    [("b", JNumber "2"); ("a", JString "x")]
  = computeMetadataRoot demoStringify demoDigest
      [("a", JString "x"); ("b", JNumber "2")].
Proof.
  apply computeMetadataRoot_order.
  - apply (bool_decide_unpack _). vm_compute. exact I.
  - apply perm_swap.
Defined.

(** [{a: "1", b: "2"}] and [{a: "1|b:2"}]. *)
Lemma computeMetadataRoot_separator_collision_witness :
  computeMetadataRoot demoStringify demoDigest
    [("a", JString "1"); ("b", JString "2")]
  = computeMetadataRoot demoStringify demoDigest [("a", JString "1|b:2")].
Proof.
  apply (computeMetadataRoot_separator_collision demoStringify demoDigest
           "a" "b" "1" "2").
  - vm_compute. reflexivity.
  - discriminate.
Defined.
